(** * Riegeli TensorFlow dataset kernel: the checkpointable multi-file iterator

    A shallow embedding of [RiegeliDatasetOp::Dataset::Iterator] from
    [riegeli/tensorflow/kernels/riegeli_dataset_ops.cc]: the produce-next loop
    [GetNextInternal], the checkpoint pair [SaveInternal] / [RestoreInternal]
    and the helper [OpenFile], over an abstract record reader. *)

From Stdlib Require Import ZArith NArith Lia Ascii String.
From stdpp Require Import base option list strings gmap.

Local Open Scope string_scope.
Local Open Scope N_scope.

(** ** Status values *)

(** Canonical error codes; riegeli's [StatusCode] and
    [::tensorflow::error::Code] share the numbering, which is what the
    [static_cast] between them in [GetNextInternal] relies on. *)
Module error.
Definition Code := Z.
Definition OK : Code := 0%Z.
Definition INVALID_ARGUMENT : Code := 3%Z.
Definition NOT_FOUND : Code := 5%Z.
Definition OUT_OF_RANGE : Code := 11%Z.
Definition INTERNAL : Code := 13%Z.
Definition DATA_LOSS : Code := 15%Z.
End error.

(** [riegeli::Status]. *)
Record Status := { code : Z; message : string }.

Module tensorflow.
(** [::tensorflow::Status]. *)
Record Status := { code : error.Code; error_message : string }.

Definition OK : Status := {| code := error.OK; error_message := "" |}.

Definition ok (s : Status) : bool := (code s =? error.OK)%Z.

Module errors.
(** [errors::X(args...)] concatenates its arguments into the message. *)
Definition DataLoss (a b : string) : Status :=
  {| code := error.DATA_LOSS; error_message := (a ++ b)%string |}.
Definition Internal (a : string) : Status :=
  {| code := error.INTERNAL; error_message := a |}.
Definition NotFound (a : string) : Status :=
  {| code := error.NOT_FOUND; error_message := a |}.
Definition InvalidArgument (a : string) : Status :=
  {| code := error.INVALID_ARGUMENT; error_message := a |}.
End errors.
End tensorflow.

(** ** Outcomes of a call

    A call either returns, or faults (an out-of-bounds [filenames_[i]], a
    failed [IntCast] assertion), or the bounded unrolling of [for (;;)] ran
    out of iterations. *)
Inductive Outcome (A : Type) : Type :=
  | Returns (a : A)
  | Faults
  | OutOfFuel.
Arguments Returns {A} a.
Arguments Faults {A}.
Arguments OutOfFuel {A}.

(** ** Machine integers *)

Definition INT64_MAX : Z := (2 ^ 63 - 1)%Z.

(** [++i] on a [size_t]: a 64-bit unsigned integer, which wraps around. *)
Definition size_t_incr (i : N) : N := (i + 1) mod 2 ^ 64.

(** Modelled from the spec: [IntCast] of [riegeli/base/base.h], which is not
    among the sources. The cursor holds the file index as it is, so the cast
    keeps the value; it asserts that the value fits the target type, here
    [IntCast<::tensorflow::int64>] of a [size_t]. *)
Definition IntCast_int64 (i : N) : Outcome Z :=
  if (Z.of_N i <=? INT64_MAX)%Z then Returns (Z.of_N i) else Faults.

(** Modelled from the spec: [IntCast<::tensorflow::uint64>] and
    [IntCast<size_t>] of an [int64] that the caller has checked not to be
    negative. *)
Definition IntCast_unsigned (v : Z) : N := Z.to_N v.

(** ** The checkpoint store

    [::tensorflow::IteratorStateWriter] and [IteratorStateReader] belong to
    TensorFlow; they are modelled as the in-memory key/value store that backs
    them: a finite map from full key names to scalars. *)
Inductive Scalar :=
  | Int64Scalar (v : Z)
  | StringScalar (s : string).

Abbreviation IteratorState := (gmap string Scalar).

Definition WriteScalar (key : string) (v : Scalar) (w : IteratorState)
  : tensorflow.Status * IteratorState :=
  (tensorflow.OK, <[key := v]> w).

Definition ReadScalar_int64 (key : string) (r : IteratorState)
  : tensorflow.Status + Z :=
  match r !! key with
  | Some (Int64Scalar v) => inr v
  | Some (StringScalar _) => inl (tensorflow.errors.InvalidArgument key)
  | None => inl (tensorflow.errors.NotFound key)
  end.

Definition ReadScalar_string (key : string) (r : IteratorState)
  : tensorflow.Status + string :=
  match r !! key with
  | Some (StringScalar s) => inr s
  | Some (Int64Scalar _) => inl (tensorflow.errors.InvalidArgument key)
  | None => inl (tensorflow.errors.NotFound key)
  end.

Definition Contains (key : string) (r : IteratorState) : bool :=
  match r !! key with Some _ => true | None => false end.

(** ** The record reader, as the iterator consumes it

    [RecordReader<tensorflow::FileReader<>>], [RecordPosition] and
    [SkippedRegion] are defined elsewhere in riegeli; the iterator only uses
    the operations below. Mutating member functions return the reader they
    leave behind. *)
Class RecordSource := {
  Env : Type;
  RecordReader : Type;
  RecordPosition : Type;
  SkippedRegion : Type;
  (** [RecordReader(tensorflow::FileReader<>(filename, Options().set_env(env)))] *)
  NewReader : Env -> string -> RecordReader;
  ReadRecord : RecordReader -> option string * RecordReader;
  Recover : RecordReader -> option SkippedRegion * RecordReader;
  Close : RecordReader -> bool * RecordReader;
  status : RecordReader -> Status;
  pos : RecordReader -> RecordPosition;
  Seek : RecordPosition -> RecordReader -> bool * RecordReader;
  ToString : SkippedRegion -> string;
  ToBytes : RecordPosition -> string;
  FromBytes : string -> option RecordPosition;
}.

(** ** Dataset and iterator *)

Record Dataset := { filenames_ : list string }.

Definition size (ds : Dataset) : N := N.of_nat (length (filenames_ ds)).

(** [DatasetIterator<Dataset>::Params]. *)
Record Params := { dataset : Dataset; prefix : string }.

(** [full_name(name)] of TensorFlow's iterator base class. *)
Definition full_name (params : Params) (name : string) : string :=
  (prefix params ++ ":" ++ name)%string.

Section Iterator.
Context {RS : RecordSource}.
Variable params : Params.

(** The two member variables guarded by [mu_]; [None] is [absl::nullopt]. *)
Record Iterator := {
  current_file_index_ : N;
  reader_ : option RecordReader;
}.

(** The state a freshly constructed iterator has. *)
Definition Iterator_new : Iterator :=
  {| current_file_index_ := 0; reader_ := None |}.

(** What one [GetNextInternal] call hands back: the status, the tensors it
    pushed onto [out_tensors], and [*end_of_sequence]. *)
Record GetNextResult := {
  result : tensorflow.Status;
  out_tensors : list string;
  end_of_sequence : bool;
}.

(** [OpenFile]: [reader_.emplace(...)] on [filenames_[current_file_index_]];
    the vector access is out of bounds when the index is not below the
    size. *)
Definition OpenFile (ctx : Env) (it : Iterator) : Outcome Iterator :=
  match filenames_ (dataset params) !! N.to_nat (current_file_index_ it) with
  | Some filename =>
      Returns {| current_file_index_ := current_file_index_ it;
                 reader_ := Some (NewReader ctx filename) |}
  | None => Faults
  end.

(** One trip round the [for (;;)] of [GetNextInternal]. *)
Inductive Flow :=
  | Return (r : GetNextResult) (it : Iterator)
  | Continue (it : Iterator)
  | Fault.

(** The tail of the loop body, after the [if (reader_.has_value())] block. *)
Definition next_file (ctx : Env) (it : Iterator) : Flow :=
  if current_file_index_ it =? size (dataset params) then
    Return {| result := tensorflow.OK; out_tensors := [];
              end_of_sequence := true |} it
  else
    match OpenFile ctx it with
    | Returns it' => Continue it'
    | _ => Fault
    end.

Definition GetNextInternal_body (ctx : Env) (it : Iterator) : Flow :=
  match reader_ it with
  | Some reader =>
      match ReadRecord reader with
      | (Some value, reader) =>
          Return {| result := tensorflow.OK; out_tensors := [value];
                    end_of_sequence := false |}
                 {| current_file_index_ := current_file_index_ it;
                    reader_ := Some reader |}
      | (None, reader) =>
          match Recover reader with
          | (Some skipped_region, reader) =>
              Return {| result :=
                          tensorflow.errors.DataLoss
                            "Skipping invalid region of a Riegeli/records file: "
                            (ToString skipped_region);
                        out_tensors := [];
                        end_of_sequence := false |}
                     {| current_file_index_ := current_file_index_ it;
                        reader_ := Some reader |}
          | (None, reader) =>
              match Close reader with
              | (false, reader) =>
                  let status := status reader in
                  let index := size_t_incr (current_file_index_ it) in
                  Return {| result :=
                              {| tensorflow.code := code status;
                                 tensorflow.error_message := message status |};
                            out_tensors := [];
                            end_of_sequence := index =? size (dataset params) |}
                         {| current_file_index_ := index; reader_ := None |}
              | (true, _) =>
                  next_file ctx
                    {| current_file_index_ :=
                         size_t_incr (current_file_index_ it);
                       reader_ := None |}
              end
          end
      end
  | None => next_file ctx it
  end.

Fixpoint GetNextInternal_loop (fuel : nat) (ctx : Env) (it : Iterator)
  : Outcome (GetNextResult * Iterator) :=
  match fuel with
  | O => OutOfFuel
  | S fuel =>
      match GetNextInternal_body ctx it with
      | Return r it' => Returns (r, it')
      | Continue it' => GetNextInternal_loop fuel ctx it'
      | Fault => Faults
      end
  end.

(** The loop opens each remaining file at most once, so [size + 2] trips
    are enough from any state (see [GetNextInternal_loop_fuel]). *)
Definition GetNextInternal (ctx : Env) (it : Iterator)
  : Outcome (GetNextResult * Iterator) :=
  GetNextInternal_loop (S (S (N.to_nat (size (dataset params))))) ctx it.

(** [SaveInternal]: returns the status, the writer and the iterator. *)
Definition SaveInternal (writer : IteratorState) (it : Iterator)
  : Outcome (tensorflow.Status * IteratorState * Iterator) :=
  match IntCast_int64 (current_file_index_ it) with
  | Returns index =>
      let (st, writer) :=
        WriteScalar (full_name params "current_file_index")
                    (Int64Scalar index) writer in
      if negb (tensorflow.ok st) then Returns (st, writer, it)
      else
        match reader_ it with
        | Some reader =>
            let (st, writer) :=
              WriteScalar (full_name params "current_pos")
                          (StringScalar (ToBytes (pos reader))) writer in
            if negb (tensorflow.ok st) then Returns (st, writer, it)
            else Returns (tensorflow.OK, writer, it)
        | None => Returns (tensorflow.OK, writer, it)
        end
  | _ => Faults
  end.

(** [RestoreInternal]: returns the status and the iterator it leaves. *)
Definition RestoreInternal (ctx : Env) (reader : IteratorState)
    (it : Iterator) : Outcome (tensorflow.Status * Iterator) :=
  let it := {| current_file_index_ := 0; reader_ := None |} in
  match ReadScalar_int64 (full_name params "current_file_index") reader with
  | inl st => Returns (st, it)
  | inr current_file_index =>
      if (current_file_index <? 0)%Z
         || (size (dataset params) <? IntCast_unsigned current_file_index) then
        Returns (tensorflow.errors.Internal "current_file_index out of range",
                 it)
      else
        let it := {| current_file_index_ := IntCast_unsigned current_file_index;
                     reader_ := None |} in
        if Contains (full_name params "current_pos") reader then
          if current_file_index_ it =? size (dataset params) then
            Returns (tensorflow.errors.Internal
                       "current_file_index out of range", it)
          else
            match ReadScalar_string (full_name params "current_pos") reader with
            | inl st => Returns (st, it)
            | inr current_pos =>
                match FromBytes current_pos with
                | None =>
                    Returns (tensorflow.errors.Internal
                               "current_pos is not a valid RecordPosition", it)
                | Some pos =>
                    match OpenFile ctx it with
                    | Returns it =>
                        Returns
                          (tensorflow.OK,
                           {| current_file_index_ := current_file_index_ it;
                              reader_ :=
                                option_map (fun r => snd (Seek pos r))
                                           (reader_ it) |})
                    | _ => Faults
                    end
                end
            end
        else Returns (tensorflow.OK, it)
  end.

End Iterator.

(** ** Properties of iterator states, and the callers' loops *)

(** [std::vector::size()] never exceeds [max_size()], which is at most
    [PTRDIFF_MAX]. *)
Definition max_size : N := 2 ^ 63 - 1.

Definition valid_dataset (params : Params) : Prop :=
  size (dataset params) <= max_size.

Section Drivers.
Context {RS : RecordSource}.
Variable params : Params.

(** The invariants written above the member variables. *)
Definition Invariant (it : Iterator) : Prop :=
  current_file_index_ it <= size (dataset params) /\
  (current_file_index_ it = size (dataset params) -> reader_ it = None).

(** States an iterator can be in between two calls, all calls being made
    with the same [ctx]. A restore that fails also leaves a state. *)
Inductive reachable (ctx : Env) : Iterator -> Prop :=
  | reachable_new : reachable ctx Iterator_new
  | reachable_GetNext it r it' :
      reachable ctx it ->
      GetNextInternal params ctx it = Returns (r, it') ->
      reachable ctx it'
  | reachable_Save it w st w' it' :
      reachable ctx it ->
      SaveInternal params w it = Returns (st, w', it') ->
      reachable ctx it'
  | reachable_Restore it r st it' :
      reachable ctx it ->
      RestoreInternal params ctx r it = Returns (st, it') ->
      reachable ctx it'.

(** An upper bound on the trips round the loop a call makes. *)
Definition trips (it : Iterator) : nat :=
  match reader_ it with
  | Some _ =>
      if current_file_index_ it <? size (dataset params)
      then N.to_nat (size (dataset params) - current_file_index_ it)
      else S (N.to_nat (size (dataset params)))
  | None =>
      if current_file_index_ it <? size (dataset params)
      then S (N.to_nat (size (dataset params) - current_file_index_ it))
      else 1%nat
  end.

(** The results of [n] consecutive [GetNextInternal] calls. *)
Fixpoint GetNext_trace (n : nat) (ctx : Env) (it : Iterator)
  : Outcome (list GetNextResult) :=
  match n with
  | O => Returns []
  | S n =>
      match GetNextInternal params ctx it with
      | Returns (r, it') =>
          match GetNext_trace n ctx it' with
          | Returns rs => Returns (r :: rs)
          | o => o
          end
      | Faults => Faults
      | OutOfFuel => OutOfFuel
      end
  end.

(** A consumer that calls [GetNextInternal] until [*end_of_sequence] is set,
    giving up after [calls] calls. *)
Fixpoint produce_until_end (calls : nat) (ctx : Env) (it : Iterator)
  : Outcome (list GetNextResult) :=
  match calls with
  | O => OutOfFuel
  | S calls =>
      match GetNextInternal params ctx it with
      | Returns (r, it') =>
          if end_of_sequence r then Returns [r]
          else
            match produce_until_end calls ctx it' with
            | Returns rs => Returns (r :: rs)
            | o => o
            end
      | Faults => Faults
      | OutOfFuel => OutOfFuel
      end
  end.

(** The records a list of call results carries. *)
Definition records_of (rs : list GetNextResult) : list string :=
  concat (map out_tensors rs).

(** What a consumer gets from a state: some number of calls reaches the end
    of the sequence, having carried [records]. *)
Definition produces (ctx : Env) (it : Iterator) (records : list string)
  : Prop :=
  exists calls rs,
    produce_until_end calls ctx it = Returns rs /\
    records_of rs = records.

(** The record stream of one file read by hand: read until a read fails,
    skip the region when the reader recovers, stop when it does not. *)
Fixpoint read_by_hand (steps : nat) (reader : RecordReader)
  : Outcome (list string) :=
  match steps with
  | O => OutOfFuel
  | S steps =>
      match ReadRecord reader with
      | (Some value, reader) =>
          match read_by_hand steps reader with
          | Returns vs => Returns (value :: vs)
          | o => o
          end
      | (None, reader) =>
          match Recover reader with
          | (Some _, reader) => read_by_hand steps reader
          | (None, _) => Returns []
          end
      end
  end.

(** [records] is the hand-read record stream of [filename]. *)
Definition file_stream (ctx : Env) (filename : string)
    (records : list string) : Prop :=
  exists steps, read_by_hand steps (NewReader ctx filename) = Returns records.

(** *** Behavioural equality of readers

    What [GetNextInternal] can tell about a reader: the outcomes of
    [ReadRecord], [Recover] and [Close], the text of a skipped region and
    the status after a close. *)
Inductive Probe := ProbeRead | ProbeRecover | ProbeClose.

Inductive Observation :=
  | SawRead (value : option string)
  | SawRecover (skipped : option string)
  | SawClose (ok : bool) (st : Status).

Fixpoint observe (ps : list Probe) (reader : RecordReader)
  : list Observation :=
  match ps with
  | [] => []
  | ProbeRead :: ps =>
      let (value, reader) := ReadRecord reader in
      SawRead value :: observe ps reader
  | ProbeRecover :: ps =>
      let (skipped, reader) := Recover reader in
      SawRecover (option_map ToString skipped) :: observe ps reader
  | ProbeClose :: ps =>
      let (ok, reader) := Close reader in
      SawClose ok (status reader) :: observe ps reader
  end.

Definition behaviourally_equal (a b : RecordReader) : Prop :=
  forall ps, observe ps a = observe ps b.

(** Readers the iterator can hold between two calls on [filename]. *)
Inductive reader_of (ctx : Env) (filename : string) : RecordReader -> Prop :=
  | reader_of_new : reader_of ctx filename (NewReader ctx filename)
  | reader_of_Seek p :
      reader_of ctx filename (snd (Seek p (NewReader ctx filename)))
  | reader_of_ReadRecord r value r' :
      reader_of ctx filename r ->
      ReadRecord r = (Some value, r') ->
      reader_of ctx filename r'
  | reader_of_Recover r r1 skipped r2 :
      reader_of ctx filename r ->
      ReadRecord r = (None, r1) ->
      Recover r1 = (Some skipped, r2) ->
      reader_of ctx filename r2.

(** The reader contract that checkpointing relies on: a position survives
    [ToBytes] / [FromBytes], and seeking a fresh reader of the same file to
    the position a reader reports gives a reader that behaves the same. *)
Definition position_bytes_roundtrip : Prop :=
  forall p, FromBytes (ToBytes p) = Some p.

Definition seek_resumes (ctx : Env) : Prop :=
  forall i filename r,
    filenames_ (dataset params) !! i = Some filename ->
    reader_of ctx filename r ->
    behaviourally_equal (snd (Seek (pos r) (NewReader ctx filename))) r.

(** An open reader is a reader of the file at the current index. *)
Definition reader_tracked (ctx : Env) (it : Iterator) : Prop :=
  forall r,
    reader_ it = Some r ->
    exists filename,
      filenames_ (dataset params) !! N.to_nat (current_file_index_ it)
      = Some filename /\
      reader_of ctx filename r.

(** Two trips round the loop that end the same way in equivalent states. *)
Definition Flow_equiv (R : Iterator -> Iterator -> Prop) (a b : Flow)
  : Prop :=
  match a, b with
  | Return ra a', Return rb b' => ra = rb /\ R a' b'
  | Continue a', Continue b' => R a' b'
  | Fault, Fault => True
  | _, _ => False
  end.

Definition Outcome_equiv (R : Iterator -> Iterator -> Prop)
    (a b : Outcome (GetNextResult * Iterator)) : Prop :=
  match a, b with
  | Returns (ra, a'), Returns (rb, b') => ra = rb /\ R a' b'
  | Faults, Faults => True
  | OutOfFuel, OutOfFuel => True
  | _, _ => False
  end.

(** Every way [RestoreInternal] can end: the status it returns and the
    state it leaves, for a checkpoint [r]. *)
Inductive restored (ctx : Env) (r : IteratorState)
  : tensorflow.Status -> Iterator -> Prop :=
  | restored_no_index st :
      ReadScalar_int64 (full_name params "current_file_index") r = inl st ->
      restored ctx r st {| current_file_index_ := 0; reader_ := None |}
  | restored_out_of_range v :
      ReadScalar_int64 (full_name params "current_file_index") r = inr v ->
      ~ (0 <= v <= Z.of_N (size (dataset params)))%Z ->
      restored ctx r
        (tensorflow.errors.Internal "current_file_index out of range")
        {| current_file_index_ := 0; reader_ := None |}
  | restored_between_files v :
      ReadScalar_int64 (full_name params "current_file_index") r = inr v ->
      (0 <= v <= Z.of_N (size (dataset params)))%Z ->
      Contains (full_name params "current_pos") r = false ->
      restored ctx r tensorflow.OK
        {| current_file_index_ := Z.to_N v; reader_ := None |}
  | restored_pos_at_end v :
      ReadScalar_int64 (full_name params "current_file_index") r = inr v ->
      v = Z.of_N (size (dataset params)) ->
      Contains (full_name params "current_pos") r = true ->
      restored ctx r
        (tensorflow.errors.Internal "current_file_index out of range")
        {| current_file_index_ := size (dataset params); reader_ := None |}
  | restored_pos_unreadable v st :
      ReadScalar_int64 (full_name params "current_file_index") r = inr v ->
      (0 <= v < Z.of_N (size (dataset params)))%Z ->
      Contains (full_name params "current_pos") r = true ->
      ReadScalar_string (full_name params "current_pos") r = inl st ->
      restored ctx r st
        {| current_file_index_ := Z.to_N v; reader_ := None |}
  | restored_pos_invalid v current_pos :
      ReadScalar_int64 (full_name params "current_file_index") r = inr v ->
      (0 <= v < Z.of_N (size (dataset params)))%Z ->
      ReadScalar_string (full_name params "current_pos") r = inr current_pos ->
      FromBytes current_pos = None ->
      restored ctx r
        (tensorflow.errors.Internal
           "current_pos is not a valid RecordPosition")
        {| current_file_index_ := Z.to_N v; reader_ := None |}
  | restored_in_file v current_pos p filename :
      ReadScalar_int64 (full_name params "current_file_index") r = inr v ->
      (0 <= v < Z.of_N (size (dataset params)))%Z ->
      ReadScalar_string (full_name params "current_pos") r = inr current_pos ->
      FromBytes current_pos = Some p ->
      filenames_ (dataset params) !! Z.to_nat v = Some filename ->
      restored ctx r tensorflow.OK
        {| current_file_index_ := Z.to_N v;
           reader_ := Some (snd (Seek p (NewReader ctx filename))) |}.

(** Same file index, and readers that behave the same. *)
Definition state_equiv (a b : Iterator) : Prop :=
  current_file_index_ a = current_file_index_ b /\
  match reader_ a, reader_ b with
  | Some ra, Some rb => behaviourally_equal ra rb
  | None, None => True
  | _, _ => False
  end.

End Drivers.

(** ** An in-memory record source

    A small conforming implementation of the reader interface, used to run the
    iterator on concrete file systems. A file is a list of chunks; a position
    is a chunk offset. *)
Module InMemory.

Inductive Chunk :=
  | Valid (value : string)        (* a record *)
  | Corrupt (description : string) (* an invalid region that can be skipped *)
  | Broken (st : Status).          (* damage that cannot be recovered from *)

Record Reader := { chunks : list Chunk; offset : nat }.

(** The file system behind [ctx->env()]. *)
Definition FileSystem := list (string * list Chunk).

Fixpoint find_file (fs : FileSystem) (filename : string)
  : option (list Chunk) :=
  match fs with
  | [] => None
  | (name, contents) :: fs =>
      if String.eqb name filename then Some contents
      else find_file fs filename
  end.

Definition not_found : Status :=
  {| code := error.NOT_FOUND; message := "file not found" |}.
Definition bad_position : Status :=
  {| code := error.OUT_OF_RANGE; message := "position out of range" |}.
Definition healthy : Status := {| code := error.OK; message := "" |}.

Definition new_reader (fs : FileSystem) (filename : string) : Reader :=
  {| chunks := match find_file fs filename with
               | Some contents => contents
               | None => [Broken not_found]
               end;
     offset := 0 |}.

Definition advance (r : Reader) : Reader :=
  {| chunks := chunks r; offset := S (offset r) |}.

Definition read_record (r : Reader) : option string * Reader :=
  match chunks r !! offset r with
  | Some (Valid value) => (Some value, advance r)
  | _ => (None, r)
  end.

Definition recover (r : Reader) : option string * Reader :=
  match chunks r !! offset r with
  | Some (Corrupt description) => (Some description, advance r)
  | _ => (None, r)
  end.

Definition reader_status (r : Reader) : Status :=
  match chunks r !! offset r with
  | Some (Broken st) => st
  | Some _ => healthy
  | None =>
      if (offset r <=? length (chunks r))%nat then healthy else bad_position
  end.

Definition close (r : Reader) : bool * Reader :=
  ((code (reader_status r) =? error.OK)%Z, r).

Definition seek (p : nat) (r : Reader) : bool * Reader :=
  ((p <=? length (chunks r))%nat, {| chunks := chunks r; offset := p |}).

(** Positions are serialized in unary. *)
Fixpoint to_bytes (p : nat) : string :=
  match p with
  | O => EmptyString
  | S p => String "x"%char (to_bytes p)
  end.

Fixpoint from_bytes (s : string) : option nat :=
  match s with
  | EmptyString => Some O
  | String c s =>
      if Ascii.eqb c "x"%char then option_map S (from_bytes s) else None
  end.

Definition source : RecordSource := {|
  Env := FileSystem;
  RecordReader := Reader;
  RecordPosition := nat;
  SkippedRegion := string;
  NewReader := new_reader;
  ReadRecord := read_record;
  Recover := recover;
  Close := close;
  status := reader_status;
  pos := offset;
  Seek := seek;
  ToString := fun description => description;
  ToBytes := to_bytes;
  FromBytes := from_bytes;
|}.

(** The scenario of two files: three records and a corrupt trailer, then
    two records; and a third file that breaks after one record. *)
Definition data_loss : Status :=
  {| code := error.DATA_LOSS; message := "truncated chunk" |}.

Definition disk : FileSystem :=
  [ ("a", [Valid "a1"; Valid "a2"; Valid "a3"; Corrupt "trailer"]);
    ("b", [Valid "b1"; Valid "b2"]);
    ("c", [Valid "c1"; Broken data_loss]);
    ("d", [Valid "d1"; Corrupt "gap"; Valid "d2"]) ].

Definition files_ab : Params :=
  {| dataset := {| filenames_ := ["a"; "b"] |}; prefix := "Iterator::Riegeli" |}.
Definition files_acb : Params :=
  {| dataset := {| filenames_ := ["a"; "c"; "b"] |};
     prefix := "Iterator::Riegeli" |}.
Definition files_bc : Params :=
  {| dataset := {| filenames_ := ["b"; "c"] |}; prefix := "Iterator::Riegeli" |}.
Definition files_db : Params :=
  {| dataset := {| filenames_ := ["d"; "b"] |}; prefix := "Iterator::Riegeli" |}.

(** A checkpoint with a file index and, when [current_pos] is given, a
    position. *)
Definition checkpoint (params : Params) (index : Z)
    (current_pos : option string) : IteratorState :=
  let r := {[ full_name params "current_file_index" := Int64Scalar index ]} in
  match current_pos with
  | Some bytes => <[full_name params "current_pos" := StringScalar bytes]> r
  | None => r
  end.

(** An iterator over [disk] at file [index] with chunk [off] next. *)
Definition at_chunk (filename : string) (index : N) (off : nat)
  : Iterator (RS := source) :=
  {| current_file_index_ := index;
     reader_ := Some ({| chunks := chunks (new_reader disk filename);
                         offset := off |} : @RecordReader source) |}.

Definition between_files (index : N) : Iterator (RS := source) :=
  {| current_file_index_ := index; reader_ := None |}.

End InMemory.

(** ** The rest of the dataset kernel *)

(** What [MakeDataset] uses of the [filenames] input tensor: its number of
    dimensions and its elements in row-major order, as [flat<std::string>()]
    gives them. [NumElements()] is an [int64]. *)
Record Tensor := { dims : Z; flat : list string }.

Definition NumElements (t : Tensor) : Z := Z.of_nat (length (flat t)).

Definition INT_MAX : Z := (2 ^ 31 - 1)%Z.

(** The copying loop of [MakeDataset],
    [for (int i = 0; i < NumElements(); ++i) filenames.push_back(flat(i))]:
    [i] is an [int], so [++i] overflows past [INT_MAX]. *)
Fixpoint MakeDataset_loop (fuel : nat) (t : Tensor) (i : Z)
    (filenames : list string) : Outcome (list string) :=
  match fuel with
  | O => OutOfFuel
  | S fuel =>
      if (i <? NumElements t)%Z then
        match flat t !! Z.to_nat i with
        | Some filename =>
            if (i =? INT_MAX)%Z then Faults
            else MakeDataset_loop fuel t (i + 1)%Z (filenames ++ [filename])
        | None => Faults
        end
      else Returns filenames
  end.

(** [MakeDataset], given what [ctx->input("filenames", ...)] returned: the
    status the kernel context ends with, and the dataset when one is made. *)
Definition MakeDataset (input : tensorflow.Status + Tensor)
  : Outcome (tensorflow.Status * option Dataset) :=
  match input with
  | inl st => Returns (st, None)
  | inr filenames_tensor =>
      if (dims filenames_tensor <=? 1)%Z then
        match MakeDataset_loop (S (length (flat filenames_tensor)))
                               filenames_tensor 0 [] with
        | Returns filenames =>
            Returns (tensorflow.OK, Some {| filenames_ := filenames |})
        | Faults => Faults
        | OutOfFuel => OutOfFuel
        end
      else
        Returns (tensorflow.errors.InvalidArgument
                   "`filenames` must be a scalar or a vector.", None)
  end.

Section MoreDrivers.
Context {RS : RecordSource}.
Variable params : Params.

(** [MakeIteratorInternal]: the parameters and the state of the new
    iterator. *)
Definition MakeIteratorInternal (ds : Dataset) (prefix : string)
  : Params * Iterator :=
  ({| dataset := ds; prefix := (prefix ++ "::Riegeli")%string |},
   Iterator_new).

(** The three kinds of result a call gives besides a fault. *)
Definition record_result (value : string) : GetNextResult :=
  {| result := tensorflow.OK; out_tensors := [value];
     end_of_sequence := false |}.

Definition skipped_result (skipped : SkippedRegion) : GetNextResult :=
  {| result :=
       tensorflow.errors.DataLoss
         "Skipping invalid region of a Riegeli/records file: "
         (ToString skipped);
     out_tensors := []; end_of_sequence := false |}.

Definition failed_result (st : Status) (last : bool) : GetNextResult :=
  {| result := {| tensorflow.code := code st;
                  tensorflow.error_message := message st |};
     out_tensors := []; end_of_sequence := last |}.

Definition end_result : GetNextResult :=
  {| result := tensorflow.OK; out_tensors := []; end_of_sequence := true |}.

(** A reader with nothing to give: the read fails, there is nothing to
    recover from, and the close is clean. *)
Definition yields_nothing (reader : RecordReader) : Prop :=
  exists r1 r2 r3,
    ReadRecord reader = (None, r1) /\
    Recover r1 = (None, r2) /\
    Close r2 = (true, r3).

(** How a file read by hand ends. *)
Inductive Ending :=
  | EndsCleanly
  | EndsFailed (st : Status).

(** One file read by hand, keeping what a call would report at each step:
    a record, a skipped region, and at the end whether the close was clean. *)
Fixpoint file_results (steps : nat) (reader : RecordReader)
  : Outcome (list GetNextResult * Ending) :=
  match steps with
  | O => OutOfFuel
  | S steps =>
      match ReadRecord reader with
      | (Some value, reader) =>
          match file_results steps reader with
          | Returns (rs, e) => Returns (record_result value :: rs, e)
          | o => o
          end
      | (None, reader) =>
          match Recover reader with
          | (Some skipped, reader) =>
              match file_results steps reader with
              | Returns (rs, e) => Returns (skipped_result skipped :: rs, e)
              | o => o
              end
          | (None, reader) =>
              match Close reader with
              | (true, _) => Returns ([], EndsCleanly)
              | (false, reader) => Returns ([], EndsFailed (status reader))
              end
          end
      end
  end.

Definition file_report (ctx : Env) (filename : string)
    (report : list GetNextResult * Ending) : Prop :=
  exists steps, file_results steps (NewReader ctx filename) = Returns report.

(** The results a consumer is to see for files read by hand one after the
    other: each file's records and skipped regions, then its error if its
    close failed, and the end of the sequence, which comes with the last
    file's error when there is one. *)
Fixpoint scan_results (reports : list (list GetNextResult * Ending))
  : list GetNextResult :=
  match reports with
  | [] => [end_result]
  | (rs, EndsCleanly) :: reports => rs ++ scan_results reports
  | (rs, EndsFailed st) :: reports =>
      match reports with
      | [] => rs ++ [failed_result st true]
      | _ :: _ => rs ++ failed_result st false :: scan_results reports
      end
  end.

End MoreDrivers.

(** Two more file systems for the in-memory source. *)
Module InMemoryMore.

Definition hollow_disk : InMemory.FileSystem :=
  [ ("e1", []); ("e2", []); ("e3", []) ].

Definition files_hollow : Params :=
  {| dataset := {| filenames_ := ["e1"; "e2"; "e3"] |};
     prefix := "Iterator::Riegeli" |}.

Definition files_none : Params :=
  {| dataset := {| filenames_ := [] |}; prefix := "Iterator::Riegeli" |}.

End InMemoryMore.

Section ResultShape.
Context {RS : RecordSource}.
Variable params : Params.

(** What holds of the result of a call and the state it leaves: at most one
    tensor; a tensor only with OK, without the end of the sequence and with
    the file still open; the end of the sequence only without a tensor, at
    the end of the file list and with no reader. *)
Definition well_shaped (r : GetNextResult) (it' : Iterator) : Prop :=
  (length (out_tensors r) <= 1)%nat /\
  (out_tensors r <> [] ->
   result r = tensorflow.OK /\ end_of_sequence r = false /\
   reader_ it' <> None) /\
  (end_of_sequence r = true ->
   out_tensors r = [] /\
   current_file_index_ it' = size (dataset params) /\
   reader_ it' = None).

End ResultShape.

(** ** The Python binding: recording the record type in the metadata

    [FileDescriptorCollector] and [SetRecordType] of
    [riegeli/records/python/record_writer.cc]. The Python objects are
    modelled by what the code asks of them; [None] is a call that returned
    [nullptr] with an exception set. *)
Module python.

(** [FileDescriptorProto], as far as a file and its imports go. *)
Record FileDescriptorProto := {
  proto_name : string;
  proto_dependency : list string;
}.

(** The message [file_descriptors.add()] appends before it is filled. *)
Definition empty_proto : FileDescriptorProto :=
  {| proto_name := ""; proto_dependency := [] |}.

(** The value of a [name] attribute: a string, or an object that a set
    cannot hash. *)
Inductive PyName :=
  | Str (s : string)
  | Unhashable.

(** A Python file descriptor object: its [name] attribute, the items its
    [dependencies] attribute iterates over ([None] when the attribute is
    missing or is not iterable), whether the iteration ends on an exception
    instead of on exhaustion, and the message [CopyToProto] writes ([None]
    when it raises). *)
#[warnings="-register-all"]
Inductive PyFileDescriptor :=
  | FileDescriptorObject
      (name : option PyName)
      (dependencies : option (list PyFileDescriptor))
      (iteration_raises : bool)
      (CopyToProto : option FileDescriptorProto).

(** The collector: the [file_descriptors] container it appends to, and the
    Python set [files_seen]. The container is the repeated field
    [SetRecordType] hands over, whose [add()] succeeds; names are strings,
    on which the set operations succeed. *)
Record FileDescriptorCollector := {
  file_descriptors_ : list FileDescriptorProto;
  files_seen_ : gset string;
}.

Definition Init (file_descriptors : list FileDescriptorProto)
  : bool * FileDescriptorCollector :=
  (true, {| file_descriptors_ := file_descriptors; files_seen_ := ∅ |}).

(** The [while] loop of [AddFile] over the dependencies, for a given way to
    add one file. *)
Definition AddFile_dependencies
    (AddFile : PyFileDescriptor -> FileDescriptorCollector ->
               bool * FileDescriptorCollector) :=
  fix loop (iter : list PyFileDescriptor) (self : FileDescriptorCollector)
    : bool * FileDescriptorCollector :=
    match iter with
    | [] => (true, self)
    | dependency :: iter =>
        match AddFile dependency self with
        | (false, self) => (false, self)
        | (true, self) => loop iter self
        end
    end.

Fixpoint AddFile (file_descriptor : PyFileDescriptor)
    (self : FileDescriptorCollector) : bool * FileDescriptorCollector :=
  match file_descriptor with
  | FileDescriptorObject name dependencies iteration_raises CopyToProto =>
      match name with
      | None => (false, self)
      | Some Unhashable => (false, self)
      | Some (Str name) =>
          if decide (name ∈ files_seen_ self) then (true, self)
          else
            let self :=
              {| file_descriptors_ := file_descriptors_ self;
                 files_seen_ := {[name]} ∪ files_seen_ self |} in
            match dependencies with
            | None => (false, self)
            | Some dependencies =>
                match AddFile_dependencies AddFile dependencies self with
                | (false, self) => (false, self)
                | (true, self) =>
                    if iteration_raises then (false, self)
                    else
                      match CopyToProto with
                      | None =>
                          (false,
                           {| file_descriptors_ :=
                                file_descriptors_ self ++ [empty_proto];
                              files_seen_ := files_seen_ self |})
                      | Some file_descriptor_proto =>
                          (true,
                           {| file_descriptors_ :=
                                file_descriptors_ self
                                ++ [file_descriptor_proto];
                              files_seen_ := files_seen_ self |})
                      end
                end
            end
      end
  end.

(** What [SetRecordType] asks of [message_type]: its [DESCRIPTOR], and of
    that its [full_name] and [file]. *)
Record PyMessageDescriptor := {
  full_name : option string;
  file : option PyFileDescriptor;
}.

Record PyMessageType := { DESCRIPTOR : option PyMessageDescriptor }.

(** The two fields of a [RecordsMetadata] message that [SetRecordType]
    writes. The metadata is a genuine message: setting [record_type_name]
    to a string, reading [file_descriptor] and deleting its items
    succeed. *)
Record RecordsMetadata := {
  record_type_name : string;
  file_descriptor : list FileDescriptorProto;
}.

(** [SetRecordType], after its arguments are parsed: whether it returns
    [None] (rather than [nullptr]), and the metadata object as it leaves
    it. *)
Definition SetRecordType (metadata : RecordsMetadata)
    (message_type : PyMessageType) : bool * RecordsMetadata :=
  match DESCRIPTOR message_type with
  | None => (false, metadata)
  | Some message_descriptor =>
      match full_name message_descriptor with
      | None => (false, metadata)
      | Some full_name =>
          let metadata := {| record_type_name := full_name;
                             file_descriptor := file_descriptor metadata |} in
          let metadata := {| record_type_name := record_type_name metadata;
                             file_descriptor := [] |} in
          match file message_descriptor with
          | None => (false, metadata)
          | Some file_descriptor_object =>
              match Init (file_descriptor metadata) with
              | (false, _) => (false, metadata)
              | (true, collector) =>
                  let (ok, collector) :=
                    AddFile file_descriptor_object collector in
                  (ok, {| record_type_name := record_type_name metadata;
                          file_descriptor := file_descriptors_ collector |})
              end
          end
      end
  end.

(** *** Genuine descriptors

    What the file descriptors of the protobuf runtime are like. *)

(** The name of a file, when it has one. *)
Definition descriptor_name (fd : PyFileDescriptor) : string :=
  match fd with
  | FileDescriptorObject (Some (Str name)) _ _ _ => name
  | _ => ""
  end.

Definition descriptor_dependencies (fd : PyFileDescriptor)
  : list PyFileDescriptor :=
  match fd with
  | FileDescriptorObject _ (Some dependencies) _ _ => dependencies
  | _ => []
  end.

(** The files below a file: its dependencies and theirs. *)
Fixpoint imports (fd : PyFileDescriptor) : list PyFileDescriptor :=
  match fd with
  | FileDescriptorObject _ (Some dependencies) _ _ =>
      flat_map (fun d => d :: imports d) dependencies
  | _ => []
  end.

(** The message [CopyToProto] writes for a genuine descriptor: its name and
    the names of its dependencies. *)
Definition proto_of (fd : PyFileDescriptor) : FileDescriptorProto :=
  {| proto_name := descriptor_name fd;
     proto_dependency := descriptor_name <$> descriptor_dependencies fd |}.

(** Every attribute is there, iterating never raises, [CopyToProto] writes
    [proto_of], and the same holds of the dependencies. *)
Fixpoint genuine (fd : PyFileDescriptor) : Prop :=
  match fd with
  | FileDescriptorObject (Some (Str name)) (Some dependencies) false
                         (Some proto) =>
      proto = {| proto_name := name;
                 proto_dependency := descriptor_name <$> dependencies |} /\
      (fix all (ds : list PyFileDescriptor) : Prop :=
         match ds with
         | [] => True
         | d :: ds => genuine d /\ all ds
         end) dependencies
  | _ => False
  end.

(** No file imports itself, directly or not. *)
Fixpoint acyclic (fd : PyFileDescriptor) : Prop :=
  match fd with
  | FileDescriptorObject _ (Some dependencies) _ _ =>
      (descriptor_name fd ∉ descriptor_name <$> imports fd) /\
      (fix all (ds : list PyFileDescriptor) : Prop :=
         match ds with
         | [] => True
         | d :: ds => acyclic d /\ all ds
         end) dependencies
  | _ => True
  end.

(** Files of the same name import files of the same names. *)
Definition consistent (fd : PyFileDescriptor) : Prop :=
  forall x y,
    x ∈ fd :: imports fd -> y ∈ fd :: imports fd ->
    descriptor_name x = descriptor_name y ->
    descriptor_name <$> descriptor_dependencies x
    = descriptor_name <$> descriptor_dependencies y.

(** In a list of messages, every import of a message comes before it. *)
Definition dependencies_first (protos : list FileDescriptorProto) : Prop :=
  forall i proto dependency,
    protos !! i = Some proto ->
    dependency ∈ proto_dependency proto ->
    dependency ∈ proto_name <$> take i protos.

(** A collector in which the files of [scope] can be added: none of them is
    half-way through being added (seen, its message not appended yet), and
    the messages so far are in order, each name once and each seen. *)
Definition ready (scope : list PyFileDescriptor)
    (self : FileDescriptorCollector) : Prop :=
  (forall n, n ∈ descriptor_name <$> scope -> n ∈ files_seen_ self ->
             n ∈ proto_name <$> file_descriptors_ self) /\
  (forall n, n ∈ proto_name <$> file_descriptors_ self ->
             n ∈ files_seen_ self) /\
  NoDup (proto_name <$> file_descriptors_ self) /\
  dependencies_first (file_descriptors_ self).

(** What adding files of [scope] to [self] added: the messages [new], of
    files of [scope] not seen before, each name once, in order after the
    messages that were there; [seen] is the set of names seen afterwards. *)
Definition adds (scope : list PyFileDescriptor)
    (self : FileDescriptorCollector) (new : list FileDescriptorProto)
    (seen : gset string) : Prop :=
  (forall n, n ∈ seen <-> n ∈ files_seen_ self \/ n ∈ (proto_name <$> new)) /\
  (forall p, p ∈ new -> exists x, x ∈ scope /\ p = proto_of x) /\
  (forall n, n ∈ proto_name <$> new -> n ∉ files_seen_ self) /\
  NoDup (proto_name <$> new) /\
  dependencies_first (file_descriptors_ self ++ new).

End python.

(** Three files: ["a.proto"] imports ["b.proto"] and ["c.proto"], and
    ["b.proto"] imports ["c.proto"]. *)
Module PythonExamples.
Import python.

(** A file descriptor as the protobuf runtime makes them. *)
Definition file_object (name : string) (dependencies : list PyFileDescriptor)
  : PyFileDescriptor :=
  FileDescriptorObject
    (Some (Str name)) (Some dependencies) false
    (Some {| proto_name := name;
             proto_dependency := descriptor_name <$> dependencies |}).

Definition c_proto : PyFileDescriptor := file_object "c.proto" [].
Definition b_proto : PyFileDescriptor := file_object "b.proto" [c_proto].
Definition a_proto : PyFileDescriptor :=
  file_object "a.proto" [b_proto; c_proto].

Definition message_a : PyMessageType :=
  {| DESCRIPTOR := Some {| full_name := Some "pkg.A";
                           file := Some a_proto |} |}.

Definition old_metadata : RecordsMetadata :=
  {| record_type_name := "pkg.Old";
     file_descriptor := [proto_of (file_object "old.proto" [])] |}.

End PythonExamples.

(** ** The Python binding: the methods of [RecordWriter]

    [RecordWriterClose], [RecordWriterExit] and the [write_record] family of
    [riegeli/records/python/record_writer.cc], after their arguments are
    parsed. What CPython and the helpers of [riegeli/base/python/utils.h] do
    is a parameter; so is the [RecordWriter<PythonWriter>] that the object
    wraps. A method returns a Python object or raises, and leaves the object
    in a state. *)
Module record_writer.

Inductive PyResult (E A : Type) : Type :=
  | PyReturn (a : A)
  | PyRaise (e : E).
Arguments PyReturn {E A} a.
Arguments PyRaise {E A} e.

Class PythonApi := {
  PyObject : Type;
  (** What the error indicator holds when a call returns [nullptr]. *)
  PyErr : Type;
  Py_None : PyObject;
  Py_False : PyObject;
  (** [object == Py_None]. *)
  is_None : PyObject -> bool;
  (** The list [PyList_New(0)] and [PyList_Append] build. *)
  PyList : list PyObject -> PyObject;
  (** [PyObject_GetIter], then [PyIter_Next] until it returns [nullptr]: an
      exception when the object is not iterable; otherwise the items, and
      the exception the iteration stopped on when it did not just end. *)
  Iterate : PyObject -> PyErr + (list PyObject * option PyErr);
  (** [BytesLike::FromPython]. *)
  BytesLike_FromPython : PyObject -> PyErr + string;
  (** [PyObject_CallMethodObjArgs(record, "SerializeToString")]. *)
  SerializeToString : PyObject -> PyErr + PyObject;
  (** The exception [PythonWrapped::Verify] sets for an empty wrapper. *)
  ErrorUninitialized : PyErr;
  (** The exception [SetRiegeliError] sets. *)
  RiegeliError : string -> PyErr;
}.

Class RecordWriterApi `{PythonApi} := {
  RecordWriter : Type;
  FutureRecordPosition : Type;
  (** [WriteRecord(record, &key)]: the key when it returns true. *)
  WriteRecord : string -> RecordWriter ->
                option FutureRecordPosition * RecordWriter;
  Close : RecordWriter -> bool * RecordWriter;
  (** [dest().exception()], when it is not OK. *)
  dest_exception : RecordWriter -> option PyErr;
  message : RecordWriter -> string;
  (** [kRecordPositionApi.Verify()]: the exception when the capsule cannot
      be imported. *)
  kRecordPositionApi_Verify : option PyErr;
  RecordPositionToPython : FutureRecordPosition -> PyErr + PyObject;
}.

Section Methods.
Context `{RecordWriterApi}.

(** [PyRecordWriterObject]: the wrapper is empty before [__init__] and after
    [tp_clear]. *)
Record PyRecordWriterObject := { record_writer : option RecordWriter }.

Definition Method : Type := PyResult PyErr PyObject * PyRecordWriterObject.

(** The exception [SetExceptionFromRecordWriter] sets. *)
Definition SetExceptionFromRecordWriter (w : RecordWriter) : PyErr :=
  match dest_exception w with
  | Some exception => exception
  | None => RiegeliError (message w)
  end.

Definition RecordWriterExit (self : PyRecordWriterObject)
    (exc_type : PyObject) : Method :=
  match record_writer self with
  | Some w =>
      let (ok, w) := Close w in
      if negb ok && is_None exc_type then
        (PyRaise (SetExceptionFromRecordWriter w), {| record_writer := Some w |})
      else (PyReturn Py_False, {| record_writer := Some w |})
  | None => (PyReturn Py_False, self)
  end.

Definition RecordWriterClose (self : PyRecordWriterObject) : Method :=
  match record_writer self with
  | Some w =>
      let (ok, w) := Close w in
      if negb ok then
        (PyRaise (SetExceptionFromRecordWriter w), {| record_writer := Some w |})
      else (PyReturn Py_None, {| record_writer := Some w |})
  | None => (PyReturn Py_None, self)
  end.

Definition RecordWriterWriteRecord (self : PyRecordWriterObject)
    (record_arg : PyObject) : Method :=
  match BytesLike_FromPython record_arg with
  | inl e => (PyRaise e, self)
  | inr record =>
      match record_writer self with
      | None => (PyRaise ErrorUninitialized, self)
      | Some w =>
          match WriteRecord record w with
          | (None, w) =>
              (PyRaise (SetExceptionFromRecordWriter w),
               {| record_writer := Some w |})
          | (Some _, w) => (PyReturn Py_None, {| record_writer := Some w |})
          end
      end
  end.


(** The [while] loop of [RecordWriterWriteRecords], over the items the
    iterator gives; [stop] is the exception the iteration stopped on. *)
Fixpoint WriteRecords_loop (items : list PyObject) (stop : option PyErr)
    (self : PyRecordWriterObject) : Method :=
  match items with
  | [] =>
      match stop with
      | Some e => (PyRaise e, self)
      | None => (PyReturn Py_None, self)
      end
  | record_object :: items =>
      match BytesLike_FromPython record_object with
      | inl e => (PyRaise e, self)
      | inr record =>
          match record_writer self with
          | None => (PyRaise ErrorUninitialized, self)
          | Some w =>
              match WriteRecord record w with
              | (None, w) =>
                  (PyRaise (SetExceptionFromRecordWriter w),
                   {| record_writer := Some w |})
              | (Some _, w) =>
                  WriteRecords_loop items stop {| record_writer := Some w |}
              end
          end
      end
  end.

Definition RecordWriterWriteRecords (self : PyRecordWriterObject)
    (records_arg : PyObject) : Method :=
  match Iterate records_arg with
  | inl e => (PyRaise e, self)
  | inr (items, stop) => WriteRecords_loop items stop self
  end.



(** *** The Python the comments give for the batch methods

    [for record in records: self.write_record(record)]: one call of
    [write_record] per item, as long as none raises. *)
Fixpoint for_each_write_record (items : list PyObject) (stop : option PyErr)
    (self : PyRecordWriterObject) : Method :=
  match items with
  | [] =>
      match stop with
      | Some e => (PyRaise e, self)
      | None => (PyReturn Py_None, self)
      end
  | record :: items =>
      match RecordWriterWriteRecord self record with
      | (PyReturn _, self) => for_each_write_record items stop self
      | (PyRaise e, self) => (PyRaise e, self)
      end
  end.


End Methods.

End record_writer.

(** A small Python and a writer that holds at most [capacity] records, to
    run the methods on. *)
Module PythonWriterExample.
Import record_writer.

#[warnings="-register-all"]
Inductive Object :=
  | NoneObject
  | FalseObject
  | Bytes (s : string)
  | Int (n : Z)
  | Key (index : nat)
  | ListObject (items : list Object).

Inductive Exception :=
  | TypeError (what : string)
  | ValueError (what : string)
  | RiegeliException (what : string).

Definition python : PythonApi := {|
  PyObject := Object;
  PyErr := Exception;
  Py_None := NoneObject;
  Py_False := FalseObject;
  is_None := fun o => match o with NoneObject => true | _ => false end;
  PyList := ListObject;
  Iterate := fun o =>
    match o with
    | ListObject items => inr (items, None)
    | _ => inl (TypeError "object is not iterable")
    end;
  BytesLike_FromPython := fun o =>
    match o with
    | Bytes s => inr s
    | _ => inl (TypeError "a bytes-like object is required")
    end;
  SerializeToString := fun o =>
    match o with
    | Bytes s => inr (Bytes s)
    | _ => inl (TypeError "not a message")
    end;
  ErrorUninitialized := ValueError "Object uninitialized";
  RiegeliError := RiegeliException;
|}.

Record Writer := { written : list string; capacity : nat; closed : bool }.

Definition writer_api : @RecordWriterApi python := {|
  RecordWriter := Writer;
  FutureRecordPosition := nat;
  WriteRecord := fun record w =>
    if (length (written w) <? capacity w)%nat && negb (closed w) then
      (Some (length (written w)),
       {| written := written w ++ [record]; capacity := capacity w;
          closed := closed w |})
    else (None, w);
  Close := fun w =>
    ((length (written w) <=? capacity w)%nat,
     {| written := written w; capacity := capacity w; closed := true |});
  dest_exception := fun _ => None;
  message := fun _ => "RecordWriter is full or closed";
  kRecordPositionApi_Verify := None;
  RecordPositionToPython := fun key => inr (Key key : @PyObject python);
|}.

Definition writer_object (w : Writer)
  : @PyRecordWriterObject python writer_api :=
  {| record_writer := Some (w : @RecordWriter python writer_api) |}.

Definition fresh_writer (capacity : nat)
  : @PyRecordWriterObject python writer_api :=
  writer_object {| written := []; capacity := capacity; closed := false |}.

End PythonWriterExample.

(** * Verification *)

Section Loop.
Context {RS : RecordSource}.
Variable params : Params.
Variable ctx : Env.

Local Abbreviation files := (filenames_ (dataset params)).
Local Abbreviation count := (size (dataset params)).

Lemma size_t_incr_below i :
  valid_dataset params -> i < count -> size_t_incr i = i + 1.
Proof.
  unfold valid_dataset, max_size, size_t_incr. intros Hv Hi.
  apply N.mod_small. lia.
Qed.

Lemma size_t_incr_bound i : size_t_incr i <= i + 1.
Proof.
  unfold size_t_incr.
  transitivity ((i + 1) mod 2 ^ 64); [reflexivity|].
  apply N.Div0.mod_le.
Qed.

Lemma lookup_file_Some i filename :
  files !! N.to_nat i = Some filename -> i < count.
Proof. intros H. apply lookup_lt_Some in H. unfold size. lia. Qed.

Lemma lookup_file_below i :
  i < count -> exists filename, files !! N.to_nat i = Some filename.
Proof.
  intros H. destruct (files !! N.to_nat i) eqn:E; [eauto|].
  apply lookup_ge_None in E. unfold size in H. lia.
Qed.

Lemma OpenFile_below it filename :
  files !! N.to_nat (current_file_index_ it) = Some filename ->
  OpenFile params ctx it
  = Returns {| current_file_index_ := current_file_index_ it;
               reader_ := Some (NewReader ctx filename) |}.
Proof. unfold OpenFile. intros ->. reflexivity. Qed.

Lemma trips_pos it : (1 <= trips params it)%nat.
Proof.
  unfold trips. destruct (reader_ it);
    destruct (N.ltb_spec (current_file_index_ it) count); lia.
Qed.

Lemma next_file_Continue it it' :
  next_file params ctx it = Continue it' ->
  current_file_index_ it' = current_file_index_ it /\
  current_file_index_ it < count /\
  exists filename,
    files !! N.to_nat (current_file_index_ it) = Some filename /\
    reader_ it' = Some (NewReader ctx filename).
Proof.
  unfold next_file, OpenFile.
  destruct (current_file_index_ it =? count); [discriminate|].
  destruct (files !! N.to_nat (current_file_index_ it)) eqn:E; [|discriminate].
  intros [= <-]. simpl. split; [reflexivity|].
  split; [eapply lookup_file_Some; eassumption|]. eauto.
Qed.

Lemma body_Continue_trips it it' :
  valid_dataset params ->
  GetNextInternal_body params ctx it = Continue it' ->
  (S (trips params it') <= trips params it)%nat.
Proof.
  intros Hv. unfold GetNextInternal_body.
  destruct (reader_ it) as [r|] eqn:Hr.
  - destruct (ReadRecord r) as [[v|] r1]; [discriminate|].
    destruct (Recover r1) as [[sk|] r2]; [discriminate|].
    destruct (Close r2) as [[|] r3]; [|discriminate].
    intros H. apply next_file_Continue in H as (Hi & Hlt & f & _ & Hr').
    simpl in Hi, Hlt. unfold trips. rewrite Hr, Hr', Hi.
    pose proof (size_t_incr_bound (current_file_index_ it)) as Hb.
    destruct (N.ltb_spec (size_t_incr (current_file_index_ it)) count); [|lia].
    destruct (N.ltb_spec (current_file_index_ it) count); [|lia].
    rewrite size_t_incr_below in * by assumption. lia.
  - intros H. apply next_file_Continue in H as (Hi & Hlt & f & _ & Hr').
    unfold trips. rewrite Hr, Hr', Hi.
    destruct (N.ltb_spec (current_file_index_ it) count); lia.
Qed.

(** The loop's result does not depend on the fuel once there is enough of
    it, and with enough of it the loop never runs dry. *)
Lemma GetNextInternal_loop_fuel n m it :
  valid_dataset params ->
  (trips params it <= n)%nat -> (trips params it <= m)%nat ->
  GetNextInternal_loop params n ctx it = GetNextInternal_loop params m ctx it /\
  GetNextInternal_loop params n ctx it <> OutOfFuel.
Proof.
  intros Hv. revert m it. induction n as [|n IH]; intros m it Hn Hm.
  - pose proof (trips_pos it). lia.
  - destruct m as [|m]; [pose proof (trips_pos it); lia|].
    simpl. destruct (GetNextInternal_body params ctx it) as [r it'|it'|] eqn:Hb.
    + split; [reflexivity|discriminate].
    + apply body_Continue_trips in Hb; [|assumption].
      apply IH; lia.
    + split; [reflexivity|discriminate].
Qed.

Lemma GetNextInternal_loop_S n it :
  GetNextInternal_loop params (S n) ctx it
  = match GetNextInternal_body params ctx it with
    | Return r it' => Returns (r, it')
    | Continue it' => GetNextInternal_loop params n ctx it'
    | Fault => Faults
    end.
Proof. reflexivity. Qed.

Lemma trips_bound it : (trips params it <= S (S (N.to_nat count)))%nat.
Proof.
  unfold trips. destruct (reader_ it);
    destruct (N.ltb_spec (current_file_index_ it) count); lia.
Qed.

Lemma GetNextInternal_unfold it :
  valid_dataset params ->
  GetNextInternal params ctx it
  = match GetNextInternal_body params ctx it with
    | Return r it' => Returns (r, it')
    | Continue it' => GetNextInternal params ctx it'
    | Fault => Faults
    end.
Proof.
  intros Hv. unfold GetNextInternal.
  remember (S (N.to_nat count)) as n eqn:Hn.
  rewrite GetNextInternal_loop_S.
  destruct (GetNextInternal_body params ctx it) as [r it'|it'|] eqn:Hb;
    try reflexivity.
  apply GetNextInternal_loop_fuel; [assumption| |].
  - apply body_Continue_trips in Hb; [|assumption].
    pose proof (trips_bound it). lia.
  - pose proof (trips_bound it'). lia.
Qed.

Lemma GetNextInternal_terminates it :
  valid_dataset params -> GetNextInternal params ctx it <> OutOfFuel.
Proof.
  intros Hv. unfold GetNextInternal.
  apply (GetNextInternal_loop_fuel _ (trips params it) it Hv);
    [apply trips_bound|lia].
Qed.

End Loop.

Section Calls.
Context {RS : RecordSource}.
Variable params : Params.
Variable ctx : Env.

Local Abbreviation files := (filenames_ (dataset params)).
Local Abbreviation count := (size (dataset params)).

Lemma GetNextInternal_Return it r it' :
  GetNextInternal_body params ctx it = Return r it' ->
  GetNextInternal params ctx it = Returns (r, it').
Proof.
  intros H. unfold GetNextInternal. rewrite GetNextInternal_loop_S, H.
  reflexivity.
Qed.

Lemma GetNextInternal_Continue it it' :
  valid_dataset params ->
  GetNextInternal_body params ctx it = Continue it' ->
  GetNextInternal params ctx it = GetNextInternal params ctx it'.
Proof.
  intros Hv H. rewrite GetNextInternal_unfold, H by assumption. reflexivity.
Qed.

(** *** The branches of the loop body *)

Lemma next_file_end it :
  current_file_index_ it = count ->
  next_file params ctx it
  = Return {| result := tensorflow.OK; out_tensors := [];
              end_of_sequence := true |} it.
Proof. unfold next_file. intros ->. rewrite N.eqb_refl. reflexivity. Qed.

Lemma next_file_open it filename :
  files !! N.to_nat (current_file_index_ it) = Some filename ->
  next_file params ctx it
  = Continue {| current_file_index_ := current_file_index_ it;
                reader_ := Some (NewReader ctx filename) |}.
Proof.
  intros H. unfold next_file. rewrite (OpenFile_below _ _ _ _ H).
  apply lookup_file_Some in H.
  destruct (N.eqb_spec (current_file_index_ it) count); [lia|reflexivity].
Qed.

Lemma body_closed it :
  reader_ it = None ->
  GetNextInternal_body params ctx it = next_file params ctx it.
Proof. unfold GetNextInternal_body. intros ->. reflexivity. Qed.

Lemma body_record it r value r' :
  reader_ it = Some r -> ReadRecord r = (Some value, r') ->
  GetNextInternal_body params ctx it
  = Return {| result := tensorflow.OK; out_tensors := [value];
              end_of_sequence := false |}
           {| current_file_index_ := current_file_index_ it;
              reader_ := Some r' |}.
Proof. unfold GetNextInternal_body. intros -> ->. reflexivity. Qed.

Lemma body_skipped it r r1 skipped r2 :
  reader_ it = Some r -> ReadRecord r = (None, r1) ->
  Recover r1 = (Some skipped, r2) ->
  GetNextInternal_body params ctx it
  = Return {| result :=
                tensorflow.errors.DataLoss
                  "Skipping invalid region of a Riegeli/records file: "
                  (ToString skipped);
              out_tensors := [];
              end_of_sequence := false |}
           {| current_file_index_ := current_file_index_ it;
              reader_ := Some r2 |}.
Proof. unfold GetNextInternal_body. intros -> -> ->. reflexivity. Qed.

Lemma body_failed it r r1 r2 r3 :
  reader_ it = Some r -> ReadRecord r = (None, r1) ->
  Recover r1 = (None, r2) -> Close r2 = (false, r3) ->
  GetNextInternal_body params ctx it
  = Return {| result :=
                {| tensorflow.code := code (status r3);
                   tensorflow.error_message := message (status r3) |};
              out_tensors := [];
              end_of_sequence :=
                size_t_incr (current_file_index_ it) =? count |}
           {| current_file_index_ := size_t_incr (current_file_index_ it);
              reader_ := None |}.
Proof. unfold GetNextInternal_body. intros -> -> -> ->. reflexivity. Qed.

Lemma body_finished it r r1 r2 r3 :
  reader_ it = Some r -> ReadRecord r = (None, r1) ->
  Recover r1 = (None, r2) -> Close r2 = (true, r3) ->
  GetNextInternal_body params ctx it
  = next_file params ctx
      {| current_file_index_ := size_t_incr (current_file_index_ it);
         reader_ := None |}.
Proof. unfold GetNextInternal_body. intros -> -> -> ->. reflexivity. Qed.

(** *** Calls on whole states *)

Lemma GetNextInternal_end it :
  current_file_index_ it = count -> reader_ it = None ->
  GetNextInternal params ctx it
  = Returns ({| result := tensorflow.OK; out_tensors := [];
                end_of_sequence := true |}, it).
Proof.
  intros Hi Hr. apply GetNextInternal_Return.
  rewrite body_closed by assumption. apply next_file_end, Hi.
Qed.

Lemma GetNextInternal_open it filename :
  valid_dataset params ->
  reader_ it = None ->
  files !! N.to_nat (current_file_index_ it) = Some filename ->
  GetNextInternal params ctx it
  = GetNextInternal params ctx
      {| current_file_index_ := current_file_index_ it;
         reader_ := Some (NewReader ctx filename) |}.
Proof.
  intros Hv Hr Hf. apply GetNextInternal_Continue; [assumption|].
  rewrite body_closed by assumption. apply next_file_open, Hf.
Qed.

Lemma GetNextInternal_finished it r r1 r2 r3 :
  valid_dataset params ->
  current_file_index_ it < count ->
  reader_ it = Some r -> ReadRecord r = (None, r1) ->
  Recover r1 = (None, r2) -> Close r2 = (true, r3) ->
  GetNextInternal params ctx it
  = GetNextInternal params ctx
      {| current_file_index_ := current_file_index_ it + 1;
         reader_ := None |}.
Proof.
  intros Hv Hi Hr H1 H2 H3.
  rewrite GetNextInternal_unfold by assumption.
  rewrite (body_finished _ _ _ _ _ Hr H1 H2 H3).
  rewrite (size_t_incr_below params _ Hv Hi).
  rewrite <- body_closed by reflexivity.
  rewrite <- GetNextInternal_unfold by assumption. reflexivity.
Qed.

(** *** The invariant *)

Lemma body_Invariant it :
  valid_dataset params -> Invariant params it ->
  match GetNextInternal_body params ctx it with
  | Return _ it' | Continue it' => Invariant params it'
  | Fault => False
  end.
Proof.
  intros Hv [Hle Hend].
  assert (Hnext : forall it0, Invariant params it0 -> reader_ it0 = None ->
            match next_file params ctx it0 with
            | Return _ it' | Continue it' => Invariant params it'
            | Fault => False
            end).
  { intros it0 [Hle0 Hend0] Hr0. unfold next_file.
    destruct (N.eqb_spec (current_file_index_ it0) count) as [E|E].
    - split; assumption.
    - destruct (lookup_file_below params (current_file_index_ it0))
        as [f Hf]; [lia|].
      rewrite (OpenFile_below _ _ _ _ Hf). split; simpl; [lia|].
      intros; lia. }
  unfold GetNextInternal_body.
  destruct (reader_ it) as [r|] eqn:Hr.
  - assert (Hlt : current_file_index_ it < count).
    { destruct (N.eq_dec (current_file_index_ it) count) as [E|E]; [|lia].
      specialize (Hend E). discriminate. }
    destruct (ReadRecord r) as [[v|] r1].
    { split; simpl; [lia|intros; lia]. }
    destruct (Recover r1) as [[sk|] r2].
    { split; simpl; [lia|intros; lia]. }
    pose proof (size_t_incr_below params _ Hv Hlt) as Hincr.
    destruct (Close r2) as [[|] r3].
    + apply Hnext; [|reflexivity]. split; simpl; [lia|reflexivity].
    + split; simpl; [lia|reflexivity].
  - apply Hnext; [split; [assumption|intros _; assumption]|assumption].
Qed.

Lemma GetNextInternal_loop_Invariant n it :
  valid_dataset params -> Invariant params it ->
  match GetNextInternal_loop params n ctx it with
  | Returns (_, it') => Invariant params it'
  | Faults => False
  | OutOfFuel => True
  end.
Proof.
  intros Hv. revert it. induction n as [|n IH]; intros it Hinv; [exact I|].
  rewrite GetNextInternal_loop_S.
  pose proof (body_Invariant it Hv Hinv) as Hb.
  destruct (GetNextInternal_body params ctx it);
    [exact Hb|apply IH, Hb|exact Hb].
Qed.

(** From a state that satisfies the invariant a call returns, and the state
    it leaves satisfies the invariant. *)
Lemma GetNextInternal_returns it :
  valid_dataset params -> Invariant params it ->
  exists r it',
    GetNextInternal params ctx it = Returns (r, it') /\ Invariant params it'.
Proof.
  intros Hv Hinv.
  pose proof (GetNextInternal_terminates params ctx it Hv) as Hfuel.
  pose proof (GetNextInternal_loop_Invariant
                (S (S (N.to_nat count))) it Hv Hinv) as H.
  fold (GetNextInternal params ctx it) in H.
  destruct (GetNextInternal params ctx it) as [[r it']| |];
    [eauto|contradiction|congruence].
Qed.

End Calls.

Section Checkpoint.
Context {RS : RecordSource}.
Variable params : Params.
Variable ctx : Env.

Local Abbreviation files := (filenames_ (dataset params)).
Local Abbreviation count := (size (dataset params)).
Local Abbreviation index_key := (full_name params "current_file_index").
Local Abbreviation pos_key := (full_name params "current_pos").

Lemma append_cancel (p a b : string) :
  (p ++ a)%string = (p ++ b)%string -> a = b.
Proof.
  induction p as [|c p IH]; simpl; [trivial|]. intros [= H]. auto.
Qed.

Lemma full_name_keys_differ : index_key <> pos_key.
Proof.
  unfold full_name. intros H. apply append_cancel in H. discriminate H.
Qed.

(** The checkpoint [SaveInternal] writes for a state. *)
Lemma SaveInternal_Invariant w it :
  valid_dataset params -> Invariant params it ->
  SaveInternal params w it
  = Returns
      (tensorflow.OK,
       match reader_ it with
       | Some reader =>
           <[pos_key := StringScalar (ToBytes (pos reader))]>
             (<[index_key := Int64Scalar (Z.of_N (current_file_index_ it))]> w)
       | None =>
           <[index_key := Int64Scalar (Z.of_N (current_file_index_ it))]> w
       end,
       it).
Proof.
  unfold valid_dataset, max_size. intros Hv [Hle _].
  unfold SaveInternal, IntCast_int64, INT64_MAX.
  destruct (Z.leb_spec (Z.of_N (current_file_index_ it)) (2 ^ 63 - 1)); [|lia].
  simpl. destruct (reader_ it); reflexivity.
Qed.

Lemma SaveInternal_state w it st w' it' :
  SaveInternal params w it = Returns (st, w', it') -> it' = it.
Proof.
  unfold SaveInternal. destruct (IntCast_int64 _); try discriminate.
  simpl. destruct (reader_ it); simpl; congruence.
Qed.

(** [RestoreInternal] does not look at the state it is called in. *)
Lemma RestoreInternal_forgets r it it0 :
  RestoreInternal params ctx r it = RestoreInternal params ctx r it0.
Proof. reflexivity. Qed.

(** The stored index passes the range check. *)
Lemma range_check v :
  (v <? 0)%Z || (count <? IntCast_unsigned v) = false <->
  (0 <= v <= Z.of_N count)%Z.
Proof.
  unfold IntCast_unsigned. rewrite orb_false_iff, Z.ltb_ge, N.ltb_ge. lia.
Qed.

End Checkpoint.

Section Restore.
Context {RS : RecordSource}.
Variable params : Params.
Variable ctx : Env.

Local Abbreviation files := (filenames_ (dataset params)).
Local Abbreviation count := (size (dataset params)).
Local Abbreviation index_key := (full_name params "current_file_index").
Local Abbreviation pos_key := (full_name params "current_pos").

(** [RestoreInternal] always returns, in one of the ways of [restored]. *)
Lemma RestoreInternal_restored r it :
  exists st it',
    RestoreInternal params ctx r it = Returns (st, it') /\
    restored params ctx r st it'.
Proof.
  unfold RestoreInternal.
  destruct (ReadScalar_int64 index_key r) as [st|v] eqn:Hidx.
  { eauto using restored_no_index. }
  destruct ((v <? 0)%Z || (count <? IntCast_unsigned v)) eqn:Hrange.
  { do 2 eexists. split; [reflexivity|].
    eapply restored_out_of_range; [eassumption|].
    intros H. apply range_check in H. congruence. }
  apply range_check in Hrange. simpl.
  destruct (Contains pos_key r) eqn:Hc.
  2:{ eauto using restored_between_files. }
  unfold IntCast_unsigned.
  destruct (N.eqb_spec (Z.to_N v) count) as [E|E].
  { rewrite E. do 2 eexists. split; [reflexivity|].
    eapply restored_pos_at_end; [eassumption|lia|assumption]. }
  assert (Hlt : (0 <= v < Z.of_N count)%Z) by lia.
  destruct (ReadScalar_string pos_key r) as [st|current_pos] eqn:Hpos.
  { eauto using restored_pos_unreadable. }
  destruct (FromBytes current_pos) as [p|] eqn:Hp.
  2:{ eauto using restored_pos_invalid. }
  destruct (lookup_file_below params (Z.to_N v)) as [f Hf]; [lia|].
  unfold OpenFile; simpl. rewrite Hf. simpl.
  do 2 eexists. split; [reflexivity|].
  eapply restored_in_file; try eassumption.
  rewrite <- Hf. f_equal. lia.
Qed.

Lemma restored_Invariant r st it :
  restored params ctx r st it -> Invariant params it.
Proof.
  destruct 1; split; simpl; try reflexivity; try lia; intros; lia.
Qed.

Lemma RestoreInternal_Invariant r it st it' :
  RestoreInternal params ctx r it = Returns (st, it') -> Invariant params it'.
Proof.
  destruct (RestoreInternal_restored r it) as (st0 & it0 & -> & H).
  intros [= <- <-]. eauto using restored_Invariant.
Qed.

Lemma reachable_Invariant it :
  valid_dataset params -> reachable params ctx it -> Invariant params it.
Proof.
  intros Hv. induction 1 as [|it r it' _ IH H|it w st w' it' _ IH H
                             |it r st it' _ IH H].
  - split; simpl; [lia|reflexivity].
  - destruct (GetNextInternal_returns params ctx it Hv IH)
      as (r0 & it0 & E & Hinv). congruence.
  - apply SaveInternal_state in H. congruence.
  - eauto using RestoreInternal_Invariant.
Qed.

End Restore.

(** * Properties of the calls *)

Section Claims.
Context {RS : RecordSource}.
Variable params : Params.
Variable ctx : Env.

Local Abbreviation files := (filenames_ (dataset params)).
Local Abbreviation count := (size (dataset params)).
Local Abbreviation index_key := (full_name params "current_file_index").
Local Abbreviation pos_key := (full_name params "current_pos").

(** C2, as the code has it: a checkpoint whose file index is strictly
    greater than the number of files makes [RestoreInternal] fail with the
    internal error "current_file_index out of range"; the iterator is left
    reset, at file index 0 with no open reader, whatever state it was in. *)
Theorem RestoreInternal_index_beyond_end r it v :
  r !! index_key = Some (Int64Scalar v) ->
  (Z.of_N count < v)%Z ->
  RestoreInternal params ctx r it
  = Returns (tensorflow.errors.Internal "current_file_index out of range",
             {| current_file_index_ := 0; reader_ := None |}).
Proof.
  intros Hr Hv. unfold RestoreInternal, ReadScalar_int64. rewrite Hr.
  destruct ((v <? 0)%Z || (count <? IntCast_unsigned v)) eqn:E;
    [reflexivity|].
  apply range_check in E. lia.
Qed.

(** C4: when [ReadRecord] fails and [Recover] yields a skipped region, the
    call returns a data-loss error whose message carries the region's
    description, [*end_of_sequence] is false, the file index is unchanged
    and the recovered reader stays open; the next call reads on from that
    reader, so a record that follows the region is what it returns. *)
Theorem GetNextInternal_skipped_region it r r1 skipped r2 :
  reader_ it = Some r ->
  ReadRecord r = (None, r1) ->
  Recover r1 = (Some skipped, r2) ->
  let it' := {| current_file_index_ := current_file_index_ it;
                reader_ := Some r2 |} in
  GetNextInternal params ctx it
  = Returns ({| result :=
                  {| tensorflow.code := error.DATA_LOSS;
                     tensorflow.error_message :=
                       ("Skipping invalid region of a Riegeli/records file: "
                        ++ ToString skipped)%string |};
                out_tensors := [];
                end_of_sequence := false |}, it') /\
  forall value r3,
    ReadRecord r2 = (Some value, r3) ->
    GetNextInternal params ctx it'
    = Returns ({| result := tensorflow.OK; out_tensors := [value];
                  end_of_sequence := false |},
               {| current_file_index_ := current_file_index_ it;
                  reader_ := Some r3 |}).
Proof.
  intros Hr H1 H2 it'. split.
  - apply GetNextInternal_Return. eapply body_skipped; eassumption.
  - intros value r3 H3. apply GetNextInternal_Return.
    eapply (body_record params ctx it'); [reflexivity|eassumption].
Qed.

(** C5: when [ReadRecord] fails, [Recover] yields nothing and [Close]
    reports an error, the call drops the reader, advances the file index by
    one and returns the closed reader's status. The following call goes on
    with the next file: it signals the end of the sequence when there is
    none, and otherwise behaves as a call on that file freshly opened; the
    failed file is not read again. *)
Theorem GetNextInternal_terminal_error it r r1 r2 r3 :
  valid_dataset params ->
  Invariant params it ->
  reader_ it = Some r ->
  ReadRecord r = (None, r1) ->
  Recover r1 = (None, r2) ->
  Close r2 = (false, r3) ->
  let it' := {| current_file_index_ := current_file_index_ it + 1;
                reader_ := None |} in
  GetNextInternal params ctx it
  = Returns ({| result :=
                  {| tensorflow.code := code (status r3);
                     tensorflow.error_message := message (status r3) |};
                out_tensors := [];
                end_of_sequence := current_file_index_ it + 1 =? count |},
             it') /\
  (current_file_index_ it + 1 = count ->
   GetNextInternal params ctx it'
   = Returns ({| result := tensorflow.OK; out_tensors := [];
                 end_of_sequence := true |}, it')) /\
  (forall filename,
     files !! N.to_nat (current_file_index_ it + 1) = Some filename ->
     GetNextInternal params ctx it'
     = GetNextInternal params ctx
         {| current_file_index_ := current_file_index_ it + 1;
            reader_ := Some (NewReader ctx filename) |}).
Proof.
  intros Hv [Hle Hend] Hr H1 H2 H3 it'.
  assert (Hlt : current_file_index_ it < count).
  { destruct (N.eq_dec (current_file_index_ it) count) as [E|E]; [|lia].
    rewrite (Hend E) in Hr. discriminate. }
  split; [|split].
  - apply GetNextInternal_Return.
    rewrite (body_failed params ctx it _ _ _ _ Hr H1 H2 H3).
    rewrite (size_t_incr_below params _ Hv Hlt). reflexivity.
  - intros E. apply GetNextInternal_end; [exact E|reflexivity].
  - intros filename Hf.
    apply (GetNextInternal_open params ctx it' filename Hv eq_refl Hf).
Qed.

(** C10: when [ReadRecord] fails, [Recover] yields nothing and [Close]
    reports an error on the last file of the list, the one call that returns
    the file's terminal error also sets [*end_of_sequence] to true, and
    leaves the iterator at the end with no reader. *)
Theorem GetNextInternal_terminal_error_last_file it r r1 r2 r3 :
  valid_dataset params ->
  current_file_index_ it + 1 = count ->
  reader_ it = Some r ->
  ReadRecord r = (None, r1) ->
  Recover r1 = (None, r2) ->
  Close r2 = (false, r3) ->
  exists res it',
    GetNextInternal params ctx it = Returns (res, it') /\
    result res = {| tensorflow.code := code (status r3);
                    tensorflow.error_message := message (status r3) |} /\
    out_tensors res = [] /\
    end_of_sequence res = true /\
    it' = {| current_file_index_ := count; reader_ := None |}.
Proof.
  intros Hv Hlast Hr H1 H2 H3.
  assert (Hlt : current_file_index_ it < count) by lia.
  do 2 eexists. split.
  - apply GetNextInternal_Return.
    apply (body_failed params ctx it _ _ _ _ Hr H1 H2 H3).
  - rewrite (size_t_incr_below params _ Hv Hlt), Hlast. simpl.
    rewrite N.eqb_refl. auto.
Qed.

End Claims.

Section CheckpointClaims.
Context {RS : RecordSource}.
Variable params : Params.
Variable ctx : Env.

Local Abbreviation files := (filenames_ (dataset params)).
Local Abbreviation count := (size (dataset params)).
Local Abbreviation index_key := (full_name params "current_file_index").
Local Abbreviation pos_key := (full_name params "current_pos").

(** C6: for a checkpoint that carries a position and a file index within
    [0, size]: when the index equals the number of files, [RestoreInternal]
    fails with an internal error; when it is smaller, only a position whose
    bytes do not decode is rejected; otherwise the file at that index is
    opened, [Seek] is issued and the call returns OK whatever [Seek]
    returned. A reader left unhealthy by the seek shows on the next
    [GetNextInternal] call, which returns the reader's status. *)
Theorem RestoreInternal_with_position r it v current_pos :
  r !! index_key = Some (Int64Scalar v) ->
  r !! pos_key = Some (StringScalar current_pos) ->
  (0 <= v <= Z.of_N count)%Z ->
  (v = Z.of_N count ->
   RestoreInternal params ctx r it
   = Returns (tensorflow.errors.Internal "current_file_index out of range",
              {| current_file_index_ := count; reader_ := None |})) /\
  ((v < Z.of_N count)%Z ->
   match FromBytes current_pos with
   | None =>
       RestoreInternal params ctx r it
       = Returns (tensorflow.errors.Internal
                    "current_pos is not a valid RecordPosition",
                  {| current_file_index_ := Z.to_N v; reader_ := None |})
   | Some p =>
       exists filename,
         files !! Z.to_nat v = Some filename /\
         let reader := snd (Seek p (NewReader ctx filename)) in
         let it' := {| current_file_index_ := Z.to_N v;
                       reader_ := Some reader |} in
         RestoreInternal params ctx r it = Returns (tensorflow.OK, it') /\
         forall r1 r2 r3,
           ReadRecord reader = (None, r1) ->
           Recover r1 = (None, r2) ->
           Close r2 = (false, r3) ->
           exists res it'',
             GetNextInternal params ctx it' = Returns (res, it'') /\
             result res
             = {| tensorflow.code := code (status r3);
                  tensorflow.error_message := message (status r3) |}
   end).
Proof.
  intros Hidx Hpos Hv.
  assert (Hrange : (v <? 0)%Z || (count <? IntCast_unsigned v) = false)
    by (apply range_check; exact Hv).
  unfold RestoreInternal, ReadScalar_int64, ReadScalar_string, Contains.
  rewrite Hidx, Hrange, Hpos. simpl. unfold IntCast_unsigned. split.
  - intros ->. rewrite N2Z.id, N.eqb_refl. reflexivity.
  - intros Hlt.
    destruct (N.eqb_spec (Z.to_N v) count) as [E|_]; [lia|].
    destruct (FromBytes current_pos) as [p|]; [|reflexivity].
    destruct (lookup_file_below params (Z.to_N v)) as [f Hf]; [lia|].
    exists f. split; [rewrite <- Hf; f_equal; lia|].
    unfold OpenFile; simpl. rewrite Hf. simpl. split; [reflexivity|].
    intros r1 r2 r3 H1 H2 H3. do 2 eexists. split.
    + apply GetNextInternal_Return.
      eapply body_failed; [reflexivity|eassumption..].
    + reflexivity.
Qed.

(** C7: in a reachable state [SaveInternal] succeeds and leaves the
    iterator as it was; the checkpoint always holds the current file index,
    and it holds the open reader's position when a reader is open and no
    position when none is (for a writer that had none before). *)
Theorem SaveInternal_cursor w it :
  valid_dataset params ->
  reachable params ctx it ->
  w !! pos_key = None ->
  exists w',
    SaveInternal params w it = Returns (tensorflow.OK, w', it) /\
    w' !! index_key = Some (Int64Scalar (Z.of_N (current_file_index_ it))) /\
    (forall reader,
       reader_ it = Some reader ->
       w' !! pos_key = Some (StringScalar (ToBytes (pos reader)))) /\
    (reader_ it = None -> w' !! pos_key = None).
Proof.
  intros Hv Hreach Hw.
  pose proof (reachable_Invariant params ctx it Hv Hreach) as Hinv.
  pose proof (full_name_keys_differ params) as Hne.
  eexists. split; [apply SaveInternal_Invariant; assumption|].
  destruct (reader_ it) as [reader|].
  - rewrite lookup_insert_ne, lookup_insert_eq by congruence.
    split; [reflexivity|]. split; [|discriminate].
    intros ? [= <-]. apply lookup_insert_eq.
  - rewrite lookup_insert_eq. split; [reflexivity|].
    split; [discriminate|]. intros _.
    rewrite lookup_insert_ne by congruence. exact Hw.
Qed.

(** C8: every reachable state satisfies the two invariants written in the
    class (the file index is at most the number of files; at the end no
    reader is open); from a state that satisfies them [GetNextInternal]
    returns in a state that satisfies them, [SaveInternal] returns and
    leaves the state alone, and a [RestoreInternal] that returns OK leaves a
    state that satisfies them. *)
Theorem Invariant_preserved :
  valid_dataset params ->
  (forall it, reachable params ctx it -> Invariant params it) /\
  (forall it, Invariant params it ->
     exists r it',
       GetNextInternal params ctx it = Returns (r, it') /\
       Invariant params it') /\
  (forall it w, Invariant params it ->
     exists w', SaveInternal params w it = Returns (tensorflow.OK, w', it)) /\
  (forall it r it',
     RestoreInternal params ctx r it = Returns (tensorflow.OK, it') ->
     Invariant params it').
Proof.
  intros Hv. split; [|split; [|split]].
  - intros it. apply reachable_Invariant; assumption.
  - intros it Hinv. apply GetNextInternal_returns; assumption.
  - intros it w Hinv. eexists. apply SaveInternal_Invariant; assumption.
  - intros it r it'. apply RestoreInternal_Invariant.
Qed.

(** C9: when [RestoreInternal] returns an error the iterator has no open
    reader, whatever reader it held before the call; a reader is open after
    the call only when the call returned OK, and it is then a reader newly
    opened on the file of the restored index and sought to the stored
    position. *)
Theorem RestoreInternal_error_leaves_no_reader r it st it' :
  RestoreInternal params ctx r it = Returns (st, it') ->
  (tensorflow.ok st = false -> reader_ it' = None) /\
  (forall reader,
     reader_ it' = Some reader ->
     st = tensorflow.OK /\
     exists filename p,
       files !! N.to_nat (current_file_index_ it') = Some filename /\
       reader = snd (Seek p (NewReader ctx filename))).
Proof.
  destruct (RestoreInternal_restored params ctx r it) as (st0 & it0 & -> & H).
  intros [= <- <-].
  destruct H; simpl; (split; [try reflexivity|try discriminate]).
  - discriminate.
  - intros reader [= <-]. split; [reflexivity|].
    exists filename, p. split; [|reflexivity].
    rewrite <- H3. f_equal. lia.
Qed.

End CheckpointClaims.

Section Scan.
Context {RS : RecordSource}.
Variable params : Params.
Variable ctx : Env.

Local Abbreviation files := (filenames_ (dataset params)).
Local Abbreviation count := (size (dataset params)).

Lemma produce_until_end_S calls it :
  produce_until_end params (S calls) ctx it
  = match GetNextInternal params ctx it with
    | Returns (r, it') =>
        if end_of_sequence r then Returns [r]
        else
          match produce_until_end params calls ctx it' with
          | Returns rs => Returns (r :: rs)
          | o => o
          end
    | Faults => Faults
    | OutOfFuel => OutOfFuel
    end.
Proof. reflexivity. Qed.

(** Two states on which a call does the same are the same to a consumer. *)
Lemma produce_until_end_same_call calls a b :
  GetNextInternal params ctx a = GetNextInternal params ctx b ->
  produce_until_end params calls ctx a = produce_until_end params calls ctx b.
Proof.
  intros H. destruct calls; [reflexivity|].
  rewrite !produce_until_end_S, H. reflexivity.
Qed.

Lemma produces_same_call a b records :
  GetNextInternal params ctx a = GetNextInternal params ctx b ->
  produces params ctx b records -> produces params ctx a records.
Proof.
  intros H (calls & rs & Hp & Hr). exists calls, rs.
  rewrite (produce_until_end_same_call calls a b H). auto.
Qed.

Lemma produces_step it r it' records :
  GetNextInternal params ctx it = Returns (r, it') ->
  end_of_sequence r = false ->
  produces params ctx it' records ->
  produces params ctx it (out_tensors r ++ records).
Proof.
  intros Hcall Heos (calls & rs & Hp & Hr). exists (S calls), (r :: rs).
  rewrite produce_until_end_S, Hcall, Heos, Hp. split; [reflexivity|].
  unfold records_of in *. simpl. rewrite Hr. reflexivity.
Qed.

Lemma produces_end records :
  produces params ctx {| current_file_index_ := count; reader_ := None |}
           records ->
  records = [].
Proof.
  intros (calls & rs & Hp & Hr). destruct calls; [discriminate|].
  rewrite produce_until_end_S, GetNextInternal_end in Hp by reflexivity.
  simpl in Hp. injection Hp as <-. rewrite <- Hr. reflexivity.
Qed.

(** Reading on in an open file, then going on with the files after it. *)
Lemma produces_from_reader steps :
  forall reader i records rest,
    valid_dataset params ->
    i < count ->
    read_by_hand steps reader = Returns records ->
    produces params ctx
             {| current_file_index_ := i + 1; reader_ := None |} rest ->
    produces params ctx
             {| current_file_index_ := i; reader_ := Some reader |}
             (records ++ rest).
Proof.
  induction steps as [|steps IH]; intros reader i records rest Hv Hi Hread Hrest;
    [discriminate|].
  simpl in Hread.
  destruct (ReadRecord reader) as [[value|] r1] eqn:H1.
  - destruct (read_by_hand steps r1) as [vs| |] eqn:Hvs; try discriminate.
    injection Hread as <-.
    apply (produces_step _
             {| result := tensorflow.OK; out_tensors := [value];
                end_of_sequence := false |}
             {| current_file_index_ := i; reader_ := Some r1 |});
      [|reflexivity|eauto].
    apply GetNextInternal_Return.
    eapply (body_record params ctx); [reflexivity|eassumption].
  - destruct (Recover r1) as [[skipped|] r2] eqn:H2.
    + apply (produces_step _
               {| result :=
                    tensorflow.errors.DataLoss
                      "Skipping invalid region of a Riegeli/records file: "
                      (ToString skipped);
                  out_tensors := []; end_of_sequence := false |}
               {| current_file_index_ := i; reader_ := Some r2 |});
        [|reflexivity|eauto].
      apply GetNextInternal_Return.
      eapply (body_skipped params ctx); [reflexivity|eassumption..].
    + injection Hread as <-. simpl.
      destruct (Close r2) as [[|] r3] eqn:H3.
      * eapply produces_same_call; [|exact Hrest].
        apply (GetNextInternal_finished params ctx
                 {| current_file_index_ := i; reader_ := Some reader |}
                 reader r1 r2 r3); auto.
      * pose proof (GetNextInternal_Return params ctx _ _ _
                      (body_failed params ctx
                         {| current_file_index_ := i; reader_ := Some reader |}
                         reader r1 r2 r3 eq_refl H1 H2 H3)) as Hcall.
        simpl in Hcall. rewrite (size_t_incr_below params _ Hv Hi) in Hcall.
        destruct (N.eqb_spec (i + 1) count) as [E|E].
        -- rewrite E in Hrest. apply produces_end in Hrest.
           subst rest. exists 1%nat. eexists.
           rewrite produce_until_end_S, Hcall. simpl.
           split; reflexivity.
        -- exact (produces_step _ _ _ rest Hcall eq_refl Hrest).
Qed.

(** Going through the files that are left, from a state between files. *)
Lemma produces_from_files (fs : list string) :
  forall (before : list string) streams,
    valid_dataset params ->
    files = (before ++ fs)%list ->
    Forall2 (file_stream ctx) fs streams ->
    produces params ctx
             {| current_file_index_ := N.of_nat (length before);
                reader_ := None |}
             (concat streams).
Proof.
  induction fs as [|f fs IH]; intros before streams Hv Hfiles Hall.
  - inversion Hall; subst. rewrite app_nil_r in Hfiles.
    exists 1%nat. eexists. rewrite produce_until_end_S.
    rewrite GetNextInternal_end;
      [split; reflexivity|simpl; unfold size; rewrite Hfiles; reflexivity
      |reflexivity].
  - inversion Hall as [|? s ? ss [steps Hs] Hrest]; subst. simpl.
    assert (Hf : files !! N.to_nat (N.of_nat (length before)) = Some f).
    { rewrite Nat2N.id, Hfiles. apply list_lookup_middle. reflexivity. }
    eapply produces_same_call.
    { apply (GetNextInternal_open params ctx _ f Hv); [reflexivity|exact Hf]. }
    simpl. eapply produces_from_reader;
      [assumption|eapply lookup_file_Some; exact Hf|exact Hs|].
    replace (N.of_nat (length before) + 1)
      with (N.of_nat (length (before ++ [f])%list))
      by (rewrite length_app; simpl; lia).
    apply IH; [assumption| |assumption].
    rewrite <- app_assoc. exact Hfiles.
Qed.

(** More calls than needed change nothing. *)
Lemma produce_until_end_more calls :
  forall it rs,
    produce_until_end params calls ctx it = Returns rs ->
    produce_until_end params (S calls) ctx it = Returns rs.
Proof.
  induction calls as [|calls IH]; intros it rs H; [discriminate|].
  rewrite produce_until_end_S in *.
  destruct (GetNextInternal params ctx it) as [[r it']| |]; try discriminate.
  destruct (end_of_sequence r); [exact H|].
  destruct (produce_until_end params calls ctx it') as [rs'| |] eqn:E;
    try discriminate.
  rewrite (IH it' rs' E). exact H.
Qed.

Lemma produce_until_end_le n m it rs :
  (n <= m)%nat ->
  produce_until_end params n ctx it = Returns rs ->
  produce_until_end params m ctx it = Returns rs.
Proof.
  induction 1 as [|m _ IH]; [trivial|].
  intros H. apply produce_until_end_more, IH, H.
Qed.

(** However many calls the consumer allows, it gets the same results. *)
Lemma produce_until_end_unique n m it rs rs' :
  produce_until_end params n ctx it = Returns rs ->
  produce_until_end params m ctx it = Returns rs' ->
  rs = rs'.
Proof.
  intros Hn Hm.
  apply (produce_until_end_le n (n + m)) in Hn; [|lia].
  apply (produce_until_end_le m (n + m)) in Hm; [|lia].
  congruence.
Qed.

(** C1: when every file's record stream, read by hand with corrupt regions
    skipped, is [streams], calling [GetNextInternal] from a new iterator
    until [*end_of_sequence] is set reaches the end and carries exactly the
    concatenation of [streams], in file-list order. A file that ends
    cleanly before another file is crossed inside the call: the call does
    what a call on the next file, freshly opened, does. *)
Theorem produce_until_end_concatenates streams :
  valid_dataset params ->
  Forall2 (file_stream ctx) files streams ->
  (exists calls rs,
     produce_until_end params calls ctx Iterator_new = Returns rs /\
     records_of rs = concat streams) /\
  (forall calls rs,
     produce_until_end params calls ctx Iterator_new = Returns rs ->
     records_of rs = concat streams) /\
  (forall it r r1 r2 r3 filename,
     reader_ it = Some r ->
     ReadRecord r = (None, r1) ->
     Recover r1 = (None, r2) ->
     Close r2 = (true, r3) ->
     files !! N.to_nat (current_file_index_ it + 1) = Some filename ->
     GetNextInternal params ctx it
     = GetNextInternal params ctx
         {| current_file_index_ := current_file_index_ it + 1;
            reader_ := Some (NewReader ctx filename) |}).
Proof.
  intros Hv Hall.
  pose proof (produces_from_files files [] streams Hv eq_refl Hall) as Hscan.
  split; [exact Hscan|]. split.
  - destruct Hscan as (calls0 & rs0 & Hp0 & Hr0). intros calls rs Hp.
    rewrite (produce_until_end_unique _ _ _ _ _ Hp Hp0). exact Hr0.
  - intros it r r1 r2 r3 filename Hr H1 H2 H3 Hf.
    pose proof (lookup_file_Some params _ _ Hf) as Hlt.
    rewrite (GetNextInternal_finished params ctx it r r1 r2 r3)
      by (auto; lia).
    apply (GetNextInternal_open params ctx
             {| current_file_index_ := current_file_index_ it + 1;
                reader_ := None |} filename Hv eq_refl Hf).
Qed.

End Scan.

Section Resume.
Context {RS : RecordSource}.
Variable params : Params.
Variable ctx : Env.

Local Abbreviation files := (filenames_ (dataset params)).
Local Abbreviation count := (size (dataset params)).
Local Abbreviation index_key := (full_name params "current_file_index").
Local Abbreviation pos_key := (full_name params "current_pos").

(** *** Behavioural equality is kept by the reader's operations *)

Lemma behaviourally_equal_refl r : behaviourally_equal r r.
Proof. intros ps. reflexivity. Qed.

Lemma behaviourally_equal_ReadRecord a b :
  behaviourally_equal a b ->
  fst (ReadRecord a) = fst (ReadRecord b) /\
  behaviourally_equal (snd (ReadRecord a)) (snd (ReadRecord b)).
Proof.
  intros H. split.
  - specialize (H [ProbeRead]). simpl in H.
    destruct (ReadRecord a), (ReadRecord b). simpl. congruence.
  - intros ps. specialize (H (ProbeRead :: ps)). simpl in H.
    destruct (ReadRecord a), (ReadRecord b). simpl. congruence.
Qed.

Lemma behaviourally_equal_Recover a b :
  behaviourally_equal a b ->
  option_map ToString (fst (Recover a)) = option_map ToString (fst (Recover b)) /\
  behaviourally_equal (snd (Recover a)) (snd (Recover b)).
Proof.
  intros H. split.
  - specialize (H [ProbeRecover]). simpl in H.
    destruct (Recover a), (Recover b). simpl. congruence.
  - intros ps. specialize (H (ProbeRecover :: ps)). simpl in H.
    destruct (Recover a), (Recover b). simpl. congruence.
Qed.

Lemma behaviourally_equal_Close a b :
  behaviourally_equal a b ->
  fst (Close a) = fst (Close b) /\
  status (snd (Close a)) = status (snd (Close b)).
Proof.
  intros H. specialize (H [ProbeClose]). simpl in H.
  destruct (Close a), (Close b). simpl. split; congruence.
Qed.

Lemma state_equiv_refl it : state_equiv it it.
Proof.
  split; [reflexivity|].
  destruct (reader_ it); [apply behaviourally_equal_refl|exact I].
Qed.

Lemma state_equiv_next_file a b :
  state_equiv a b ->
  Flow_equiv state_equiv (next_file params ctx a) (next_file params ctx b).
Proof.
  intros Hab. pose proof Hab as [E _]. unfold next_file, OpenFile. rewrite E.
  destruct (current_file_index_ b =? count).
  - simpl. auto.
  - destruct (files !! N.to_nat (current_file_index_ b)); simpl; [|exact I].
    split; simpl; [reflexivity|apply behaviourally_equal_refl].
Qed.

Lemma state_equiv_body a b :
  state_equiv a b ->
  Flow_equiv state_equiv (GetNextInternal_body params ctx a)
             (GetNextInternal_body params ctx b).
Proof.
  intros Hab. pose proof Hab as [E Hr]. unfold GetNextInternal_body.
  destruct (reader_ a) as [ra|] eqn:Ha, (reader_ b) as [rb|] eqn:Hb;
    try contradiction.
  2:{ apply state_equiv_next_file, Hab. }
  destruct (behaviourally_equal_ReadRecord ra rb Hr) as [H1 Hr1].
  destruct (ReadRecord ra) as [va ra1], (ReadRecord rb) as [vb rb1].
  simpl in H1, Hr1. subst vb. destruct va as [value|].
  { simpl. split; [reflexivity|]. split; simpl; assumption. }
  destruct (behaviourally_equal_Recover ra1 rb1 Hr1) as [H2 Hr2].
  destruct (Recover ra1) as [sa ra2], (Recover rb1) as [sb rb2].
  simpl in H2, Hr2. destruct sa as [sa|], sb as [sb|]; try discriminate.
  { injection H2 as H2. simpl. rewrite H2. split; [reflexivity|].
    split; simpl; assumption. }
  destruct (behaviourally_equal_Close ra2 rb2 Hr2) as [H3 Hst].
  destruct (Close ra2) as [oa ra3], (Close rb2) as [ob rb3].
  simpl in H3, Hst. subst ob. rewrite E. destruct oa.
  - apply state_equiv_next_file. split; simpl; [reflexivity|exact I].
  - simpl. rewrite Hst. split; [reflexivity|].
    split; simpl; [reflexivity|exact I].
Qed.

Lemma state_equiv_loop n :
  forall a b,
    state_equiv a b ->
    Outcome_equiv state_equiv (GetNextInternal_loop params n ctx a)
                  (GetNextInternal_loop params n ctx b).
Proof.
  induction n as [|n IH]; intros a b Hab; [exact I|].
  rewrite !GetNextInternal_loop_S.
  pose proof (state_equiv_body a b Hab) as H.
  destruct (GetNextInternal_body params ctx a),
           (GetNextInternal_body params ctx b); simpl in H;
    try contradiction; auto.
Qed.

Lemma state_equiv_GetNextInternal a b :
  state_equiv a b ->
  Outcome_equiv state_equiv (GetNextInternal params ctx a)
                (GetNextInternal params ctx b).
Proof. apply state_equiv_loop. Qed.

(** Equivalent states give the same results, call after call. *)
Lemma state_equiv_trace n :
  forall a b,
    state_equiv a b ->
    GetNext_trace params n ctx a = GetNext_trace params n ctx b.
Proof.
  induction n as [|n IH]; intros a b Hab; [reflexivity|]. simpl.
  pose proof (state_equiv_GetNextInternal a b Hab) as H.
  destruct (GetNextInternal params ctx a) as [[ra a']| |],
           (GetNextInternal params ctx b) as [[rb b']| |];
    simpl in H; try contradiction; try reflexivity.
  destruct H as [-> H]. rewrite (IH a' b' H). reflexivity.
Qed.

Lemma state_equiv_produce_until_end calls :
  forall a b,
    state_equiv a b ->
    produce_until_end params calls ctx a
    = produce_until_end params calls ctx b.
Proof.
  induction calls as [|calls IH]; intros a b Hab; [reflexivity|]. simpl.
  pose proof (state_equiv_GetNextInternal a b Hab) as H.
  destruct (GetNextInternal params ctx a) as [[ra a']| |],
           (GetNextInternal params ctx b) as [[rb b']| |];
    simpl in H; try contradiction; try reflexivity.
  destruct H as [-> H]. rewrite (IH a' b' H). reflexivity.
Qed.

(** From a state that satisfies the invariant any number of calls return. *)
Lemma GetNext_trace_returns n :
  forall it,
    valid_dataset params -> Invariant params it ->
    exists rs, GetNext_trace params n ctx it = Returns rs.
Proof.
  induction n as [|n IH]; intros it Hv Hinv; [eexists; reflexivity|].
  destruct (GetNextInternal_returns params ctx it Hv Hinv)
    as (r & it' & Hcall & Hinv').
  destruct (IH it' Hv Hinv') as [rs Hrs].
  exists (r :: rs). simpl. rewrite Hcall, Hrs. reflexivity.
Qed.

(** *** The readers of reachable states *)

Lemma reader_tracked_body it :
  reader_tracked params ctx it ->
  match GetNextInternal_body params ctx it with
  | Return _ it' | Continue it' => reader_tracked params ctx it'
  | Fault => True
  end.
Proof.
  intros Ht.
  assert (Hnext : forall it0, reader_tracked params ctx it0 ->
            match next_file params ctx it0 with
            | Return _ it' | Continue it' => reader_tracked params ctx it'
            | Fault => True
            end).
  { intros it0 Ht0. unfold next_file, OpenFile.
    destruct (current_file_index_ it0 =? count); [exact Ht0|].
    destruct (files !! N.to_nat (current_file_index_ it0)) as [f|] eqn:Hf;
      [|exact I].
    intros r [= <-]. exists f. split; [exact Hf|constructor]. }
  unfold GetNextInternal_body.
  destruct (reader_ it) as [r|] eqn:Hr; [|apply Hnext, Ht].
  destruct (Ht r Hr) as (f & Hf & Hof).
  destruct (ReadRecord r) as [[value|] r1] eqn:H1.
  { intros r' [= <-]. exists f. split; [exact Hf|].
    eapply reader_of_ReadRecord; eassumption. }
  destruct (Recover r1) as [[skipped|] r2] eqn:H2.
  { intros r' [= <-]. exists f. split; [exact Hf|].
    eapply reader_of_Recover; eassumption. }
  destruct (Close r2) as [[|] r3].
  - apply Hnext. intros r' [=].
  - intros r' [=].
Qed.

Lemma reader_tracked_loop n :
  forall it,
    reader_tracked params ctx it ->
    match GetNextInternal_loop params n ctx it with
    | Returns (_, it') => reader_tracked params ctx it'
    | _ => True
    end.
Proof.
  induction n as [|n IH]; intros it Ht; [exact I|].
  rewrite GetNextInternal_loop_S.
  pose proof (reader_tracked_body it Ht) as H.
  destruct (GetNextInternal_body params ctx it);
    [exact H|apply IH, H|exact I].
Qed.

Lemma reachable_reader_tracked it :
  reachable params ctx it -> reader_tracked params ctx it.
Proof.
  induction 1 as [|it r it' _ IH H|it w st w' it' _ IH H
                  |it r st it' _ IH H].
  - intros r [=].
  - pose proof (reader_tracked_loop (S (S (N.to_nat count))) it IH) as Ht.
    fold (GetNextInternal params ctx it) in Ht. rewrite H in Ht. exact Ht.
  - apply SaveInternal_state in H. rewrite H. exact IH.
  - destruct (RestoreInternal_restored params ctx r it)
      as (st0 & it0 & E & Hres).
    rewrite E in H. injection H as <- <-.
    destruct Hres; try (intros r' [=]; fail).
    intros r' [= <-]. exists filename. split; [|constructor]. simpl.
    rewrite <- H3. f_equal. lia.
Qed.

End Resume.

Section SaveRestore.
Context {RS : RecordSource}.
Variable params : Params.
Variable ctx : Env.

Local Abbreviation files := (filenames_ (dataset params)).
Local Abbreviation count := (size (dataset params)).
Local Abbreviation index_key := (full_name params "current_file_index").
Local Abbreviation pos_key := (full_name params "current_pos").

(** Restoring what [SaveInternal] wrote for a state gives an equivalent
    state. *)
Lemma RestoreInternal_saved it it0 :
  valid_dataset params ->
  position_bytes_roundtrip ->
  seek_resumes params ctx ->
  Invariant params it ->
  reader_tracked params ctx it ->
  exists cursor it',
    SaveInternal params ∅ it = Returns (tensorflow.OK, cursor, it) /\
    RestoreInternal params ctx cursor it0 = Returns (tensorflow.OK, it') /\
    state_equiv it' it.
Proof.
  intros Hv Hbytes Hseek Hinv Ht.
  pose proof (full_name_keys_differ params) as Hne.
  pose proof (SaveInternal_Invariant params ∅ it Hv Hinv) as Hsave.
  destruct Hinv as [Hle Hend].
  assert (Hrange : (Z.of_N (current_file_index_ it) <? 0)%Z
                   || (count <? IntCast_unsigned
                                  (Z.of_N (current_file_index_ it))) = false)
    by (apply range_check; lia).
  destruct it as [i [r|]]; simpl in *.
  - destruct (Ht r eq_refl) as (f & Hf & Hof). simpl in Hf.
    eexists. exists {| current_file_index_ := i;
                       reader_ := Some (snd (Seek (pos r) (NewReader ctx f))) |}.
    split; [exact Hsave|]. split.
    + unfold RestoreInternal, ReadScalar_int64, ReadScalar_string, Contains.
      rewrite lookup_insert_ne, lookup_insert_eq by congruence.
      rewrite Hrange, lookup_insert_eq. unfold IntCast_unsigned. simpl.
      rewrite N2Z.id.
      destruct (N.eqb_spec i count) as [E|_];
        [specialize (Hend E); discriminate|].
      rewrite Hbytes. unfold OpenFile. simpl. rewrite Hf. reflexivity.
    + split; simpl; [reflexivity|]. eapply Hseek; eassumption.
  - eexists. exists {| current_file_index_ := i; reader_ := None |}.
    split; [exact Hsave|]. split.
    + unfold RestoreInternal, ReadScalar_int64, ReadScalar_string, Contains.
      rewrite lookup_insert_eq, Hrange.
      rewrite lookup_insert_ne, lookup_empty by congruence.
      unfold IntCast_unsigned. rewrite N2Z.id. reflexivity.
    + split; simpl; [reflexivity|exact I].
Qed.

(** C3: under the reader contract (positions survive serialization, and a
    fresh reader of the same file sought to a reader's position behaves as
    that reader), saving a reachable state and restoring the checkpoint,
    into any iterator, gives an iterator whose [GetNextInternal] calls
    return, call after call, what the original's calls return; so does a
    consumer that calls until the end of the sequence. *)
Theorem save_restore_resumes it it0 :
  valid_dataset params ->
  position_bytes_roundtrip ->
  seek_resumes params ctx ->
  reachable params ctx it ->
  exists cursor it',
    SaveInternal params ∅ it = Returns (tensorflow.OK, cursor, it) /\
    RestoreInternal params ctx cursor it0 = Returns (tensorflow.OK, it') /\
    (forall n, exists rs,
       GetNext_trace params n ctx it = Returns rs /\
       GetNext_trace params n ctx it' = Returns rs) /\
    (forall calls,
       produce_until_end params calls ctx it'
       = produce_until_end params calls ctx it).
Proof.
  intros Hv Hbytes Hseek Hreach.
  pose proof (reachable_Invariant params ctx it Hv Hreach) as Hinv.
  pose proof (reachable_reader_tracked params ctx it Hreach) as Ht.
  destruct (RestoreInternal_saved it it0 Hv Hbytes Hseek Hinv Ht)
    as (cursor & it' & Hsave & Hrestore & Heq).
  exists cursor, it'. repeat split; try assumption.
  - intros n. destruct (GetNext_trace_returns params ctx n it Hv Hinv)
      as [rs Hrs].
    exists rs. split; [exact Hrs|].
    rewrite (state_equiv_trace params ctx n it' it Heq). exact Hrs.
  - intros calls. apply state_equiv_produce_until_end, Heq.
Qed.

End SaveRestore.

(** * The properties on the in-memory source *)

Module InMemoryFacts.
Import InMemory.

Lemma from_bytes_to_bytes p : from_bytes (to_bytes p) = Some p.
Proof. induction p as [|p IH]; simpl; [reflexivity|]. rewrite IH. reflexivity. Qed.

Lemma source_position_bytes_roundtrip :
  position_bytes_roundtrip (RS := source).
Proof. exact from_bytes_to_bytes. Qed.

Lemma read_record_chunks r o r' :
  read_record r = (o, r') -> chunks r' = chunks r.
Proof.
  unfold read_record. destruct (chunks r !! offset r) as [[]|];
    intros [= _ <-]; reflexivity.
Qed.

Lemma recover_chunks r o r' : recover r = (o, r') -> chunks r' = chunks r.
Proof.
  unfold recover. destruct (chunks r !! offset r) as [[]|];
    intros [= _ <-]; reflexivity.
Qed.

(** The readers of a file all hold the file's chunks. *)
Lemma reader_of_chunks fs filename (r : Reader) :
  reader_of (RS := source) fs filename r ->
  chunks r = chunks (new_reader fs filename).
Proof.
  induction 1 as [|p|r v r' _ IH H|r r1 sk r2 _ IH H1 H2]; try reflexivity.
  - apply read_record_chunks in H. congruence.
  - apply read_record_chunks in H1. apply recover_chunks in H2. congruence.
Qed.

Lemma source_seek_resumes params fs : seek_resumes (RS := source) params fs.
Proof.
  intros i filename r _ Hof. apply reader_of_chunks in Hof.
  replace (snd (Seek (RecordSource := source) (pos r) (NewReader fs filename)))
    with r; [apply behaviourally_equal_refl|].
  destruct r as [cs off]. simpl in *. subst cs. reflexivity.
Qed.

Lemma valid_files_ab : valid_dataset files_ab.
Proof. unfold valid_dataset. vm_compute. discriminate. Qed.

Lemma valid_files_acb : valid_dataset files_acb.
Proof. unfold valid_dataset. vm_compute. discriminate. Qed.

Lemma valid_files_bc : valid_dataset files_bc.
Proof. unfold valid_dataset. vm_compute. discriminate. Qed.

(** After its first call the iterator over ["a"; "b"] has read one record
    of "a". *)
Lemma reachable_first_record :
  reachable (RS := source) files_ab disk (at_chunk "a" 0 1).
Proof.
  eapply reachable_GetNext; [apply reachable_new|]. vm_compute. reflexivity.
Qed.

End InMemoryFacts.

Import InMemory InMemoryFacts.

(** The scan of ["a"; "b"] reaches the end with the records of "a" (its
    corrupt trailer skipped), then those of "b". *)
Lemma produce_until_end_concatenates_witness :
  exists calls rs,
    produce_until_end (RS := source) files_ab calls disk Iterator_new
    = Returns rs /\
    records_of rs = ["a1"; "a2"; "a3"; "b1"; "b2"].
Proof.
  apply (produce_until_end_concatenates (RS := source) files_ab disk
           [["a1"; "a2"; "a3"]; ["b1"; "b2"]] valid_files_ab).
  repeat constructor; [exists 5%nat|exists 3%nat]; reflexivity.
Defined.

(** The specification's wording of C2 does not hold: the failed restore
    moves an iterator that was in the second file back to a new iterator's
    state. *)
Lemma failed_restore_resets_state :
  RestoreInternal (RS := source) files_ab disk (checkpoint files_ab 3 None)
                  (at_chunk "b" 1 1)
  = Returns (tensorflow.errors.Internal "current_file_index out of range",
             Iterator_new) /\
  Iterator_new <> at_chunk "b" 1 1.
Proof. split; [vm_compute; reflexivity|discriminate]. Qed.

Lemma RestoreInternal_index_beyond_end_witness :
  RestoreInternal (RS := source) files_ab disk (checkpoint files_ab 3 None)
                  (at_chunk "b" 1 1)
  = Returns (tensorflow.errors.Internal "current_file_index out of range",
             between_files 0).
Proof.
  apply (RestoreInternal_index_beyond_end (RS := source) files_ab disk
           (checkpoint files_ab 3 None) (at_chunk "b" 1 1) 3).
  - vm_compute. reflexivity.
  - vm_compute. reflexivity.
Defined.

Lemma save_restore_resumes_witness :
  exists cursor it',
    SaveInternal (RS := source) files_ab ∅ (at_chunk "a" 0 1)
    = Returns (tensorflow.OK, cursor, at_chunk "a" 0 1) /\
    RestoreInternal (RS := source) files_ab disk cursor Iterator_new
    = Returns (tensorflow.OK, it') /\
    (forall n, exists rs,
       GetNext_trace (RS := source) files_ab n disk (at_chunk "a" 0 1) = Returns rs /\
       GetNext_trace (RS := source) files_ab n disk it' = Returns rs) /\
    (forall calls,
       produce_until_end (RS := source) files_ab calls disk it'
       = produce_until_end (RS := source) files_ab calls disk (at_chunk "a" 0 1)).
Proof.
  apply (save_restore_resumes (RS := source) files_ab disk
           (at_chunk "a" 0 1) Iterator_new valid_files_ab
           source_position_bytes_roundtrip
           (source_seek_resumes files_ab disk)
           reachable_first_record).
Defined.

Lemma GetNextInternal_skipped_region_witness :
  GetNextInternal (RS := source) files_db disk (at_chunk "d" 0 1)
  = Returns ({| result :=
                  {| tensorflow.code := error.DATA_LOSS;
                     tensorflow.error_message :=
                       "Skipping invalid region of a Riegeli/records file: gap" |};
                out_tensors := [];
                end_of_sequence := false |}, at_chunk "d" 0 2) /\
  GetNextInternal (RS := source) files_db disk (at_chunk "d" 0 2)
  = Returns ({| result := tensorflow.OK; out_tensors := ["d2"];
                end_of_sequence := false |}, at_chunk "d" 0 3).
Proof.
  destruct (GetNextInternal_skipped_region (RS := source) files_db disk
              (at_chunk "d" 0 1)
              {| chunks := chunks (new_reader disk "d"); offset := 1 |}
              {| chunks := chunks (new_reader disk "d"); offset := 1 |}
              "gap"
              {| chunks := chunks (new_reader disk "d"); offset := 2 |}
              eq_refl eq_refl eq_refl) as [Hcall Hnext].
  split; [exact Hcall|].
  exact (Hnext "d2" {| chunks := chunks (new_reader disk "d"); offset := 3 |}
               eq_refl).
Defined.

Lemma GetNextInternal_terminal_error_witness :
  GetNextInternal (RS := source) files_acb disk (at_chunk "c" 1 1)
  = Returns ({| result :=
                  {| tensorflow.code := error.DATA_LOSS;
                     tensorflow.error_message := "truncated chunk" |};
                out_tensors := [];
                end_of_sequence := false |}, between_files 2) /\
  GetNextInternal (RS := source) files_acb disk (between_files 2)
  = GetNextInternal (RS := source) files_acb disk (at_chunk "b" 2 0).
Proof.
  assert (Hinv : Invariant (RS := source) files_acb (at_chunk "c" 1 1)).
  { split; [vm_compute; discriminate|intros H; discriminate H]. }
  destruct (GetNextInternal_terminal_error (RS := source) files_acb disk
              (at_chunk "c" 1 1)
              {| chunks := chunks (new_reader disk "c"); offset := 1 |}
              {| chunks := chunks (new_reader disk "c"); offset := 1 |}
              {| chunks := chunks (new_reader disk "c"); offset := 1 |}
              {| chunks := chunks (new_reader disk "c"); offset := 1 |}
              valid_files_acb Hinv eq_refl eq_refl eq_refl eq_refl)
    as (Hcall & _ & Hnext).
  split; [exact Hcall|]. exact (Hnext "b" eq_refl).
Defined.

Lemma GetNextInternal_terminal_error_last_file_witness :
  exists res it',
    GetNextInternal (RS := source) files_bc disk (at_chunk "c" 1 1)
    = Returns (res, it') /\
    result res = {| tensorflow.code := error.DATA_LOSS;
                    tensorflow.error_message := "truncated chunk" |} /\
    out_tensors res = [] /\
    end_of_sequence res = true /\
    it' = between_files 2.
Proof.
  exact (GetNextInternal_terminal_error_last_file (RS := source) files_bc disk
           (at_chunk "c" 1 1)
           {| chunks := chunks (new_reader disk "c"); offset := 1 |}
           {| chunks := chunks (new_reader disk "c"); offset := 1 |}
           {| chunks := chunks (new_reader disk "c"); offset := 1 |}
           {| chunks := chunks (new_reader disk "c"); offset := 1 |}
           valid_files_bc eq_refl eq_refl eq_refl eq_refl eq_refl).
Defined.

(** Restoring into the second file past its end: the seek fails, the restore
    returns OK all the same, and the next call returns the reader's error. *)
Lemma RestoreInternal_with_position_witness :
  RestoreInternal (RS := source) files_ab disk
                  (checkpoint files_ab 1 (Some "xxx")) Iterator_new
  = Returns (tensorflow.OK, at_chunk "b" 1 3) /\
  fst (seek 3 (new_reader disk "b")) = false /\
  exists res it'',
    GetNextInternal (RS := source) files_ab disk (at_chunk "b" 1 3)
    = Returns (res, it'') /\
    result res = {| tensorflow.code := error.OUT_OF_RANGE;
                    tensorflow.error_message := "position out of range" |}.
Proof.
  destruct (RestoreInternal_with_position (RS := source) files_ab disk
              (checkpoint files_ab 1 (Some "xxx")) Iterator_new 1 "xxx")
    as [_ Hin]; [vm_compute; reflexivity..| |].
  { vm_compute. split; discriminate. }
  destruct Hin as (filename & Hf & Hrestore & Hnext); [reflexivity|].
  injection Hf as <-. split; [exact Hrestore|]. split; [reflexivity|].
  exact (Hnext {| chunks := chunks (new_reader disk "b"); offset := 3 |}
               {| chunks := chunks (new_reader disk "b"); offset := 3 |}
               {| chunks := chunks (new_reader disk "b"); offset := 3 |}
               eq_refl eq_refl eq_refl).
Defined.

Lemma SaveInternal_cursor_witness :
  exists w',
    SaveInternal (RS := source) files_ab ∅ (at_chunk "a" 0 1)
    = Returns (tensorflow.OK, w', at_chunk "a" 0 1) /\
    w' !! full_name files_ab "current_file_index" = Some (Int64Scalar 0) /\
    w' !! full_name files_ab "current_pos" = Some (StringScalar "x").
Proof.
  destruct (SaveInternal_cursor (RS := source) files_ab disk ∅
              (at_chunk "a" 0 1) valid_files_ab reachable_first_record
              (lookup_empty _))
    as (w' & Hsave & Hindex & Hpos & _).
  exists w'. split; [exact Hsave|]. split; [exact Hindex|].
  exact (Hpos _ eq_refl).
Defined.

Lemma Invariant_preserved_witness :
  Invariant (RS := source) files_ab (at_chunk "a" 0 1).
Proof.
  exact (proj1 (Invariant_preserved (RS := source) files_ab disk valid_files_ab)
               (at_chunk "a" 0 1) reachable_first_record).
Defined.

(** A checkpoint whose position does not decode, restored while a reader is
    open on the first file. *)
Lemma RestoreInternal_error_leaves_no_reader_witness :
  RestoreInternal (RS := source) files_ab disk
                  (checkpoint files_ab 1 (Some "zz")) (at_chunk "a" 0 2)
  = Returns (tensorflow.errors.Internal
               "current_pos is not a valid RecordPosition", between_files 1) /\
  reader_ (between_files 1) = None.
Proof.
  assert (H : RestoreInternal (RS := source) files_ab disk
                (checkpoint files_ab 1 (Some "zz")) (at_chunk "a" 0 2)
              = Returns (tensorflow.errors.Internal
                           "current_pos is not a valid RecordPosition",
                         between_files 1)).
  { vm_compute. reflexivity. }
  split; [exact H|].
  exact (proj1 (RestoreInternal_error_leaves_no_reader (RS := source)
                  files_ab disk _ _ _ _ H) eq_refl).
Defined.

(** * Further properties of the iterator *)

Section IteratorMore.
Context {RS : RecordSource}.
Variable params : Params.
Variable ctx : Env.

Local Abbreviation files := (filenames_ (dataset params)).
Local Abbreviation count := (size (dataset params)).

Lemma body_well_shaped it :
  match GetNextInternal_body params ctx it with
  | Return r it' => well_shaped params r it'
  | _ => True
  end.
Proof.
  assert (Hnext : forall it0, reader_ it0 = None ->
            match next_file params ctx it0 with
            | Return r it' => well_shaped params r it'
            | _ => True
            end).
  { intros it0 Hr0. unfold next_file.
    destruct (N.eqb_spec (current_file_index_ it0) count) as [E|E].
    - split; [simpl; lia|]. split; [intros H; contradiction H; reflexivity|].
      intros _. auto.
    - destruct (OpenFile params ctx it0); exact I. }
  unfold GetNextInternal_body.
  destruct (reader_ it) as [r|] eqn:Hr; [|apply Hnext, Hr].
  destruct (ReadRecord r) as [[value|] r1].
  { split; [simpl; lia|]. split; [|discriminate].
    intros _. simpl. repeat split. discriminate. }
  destruct (Recover r1) as [[skipped|] r2].
  { split; [simpl; lia|]. split; [|discriminate].
    intros H. contradiction H. reflexivity. }
  destruct (Close r2) as [[|] r3]; [apply Hnext; reflexivity|].
  split; [simpl; lia|]. split; [intros H; contradiction H; reflexivity|].
  simpl. intros H. apply N.eqb_eq in H. auto.
Qed.

(** X1: whatever state a call is made in, when it returns it has pushed at
    most one tensor; a tensor comes only with status OK, with
    [*end_of_sequence] false and with the reader left open; and
    [*end_of_sequence] is set only with no tensor, with the file index at
    the number of files and no reader open. *)
Theorem GetNextInternal_well_shaped it r it' :
  GetNextInternal params ctx it = Returns (r, it') ->
  (length (out_tensors r) <= 1)%nat /\
  (out_tensors r <> [] ->
   result r = tensorflow.OK /\ end_of_sequence r = false /\
   reader_ it' <> None) /\
  (end_of_sequence r = true ->
   out_tensors r = [] /\ current_file_index_ it' = count /\
   reader_ it' = None).
Proof.
  unfold GetNextInternal. generalize (S (S (N.to_nat count))). intros n.
  revert it. induction n as [|n IH]; intros it H; [discriminate|].
  rewrite GetNextInternal_loop_S in H.
  pose proof (body_well_shaped it) as Hb.
  destruct (GetNextInternal_body params ctx it) as [r0 it0|it0|];
    [|eauto|discriminate].
  injection H as <- <-. exact Hb.
Qed.

Lemma body_index_grows it :
  valid_dataset params -> Invariant params it ->
  match GetNextInternal_body params ctx it with
  | Return _ it' | Continue it' =>
      current_file_index_ it <= current_file_index_ it' <=
      current_file_index_ it + 1
  | Fault => True
  end.
Proof.
  intros Hv [Hle Hend].
  assert (Hnext : forall it0,
            match next_file params ctx it0 with
            | Return _ it' | Continue it' =>
                current_file_index_ it' = current_file_index_ it0
            | Fault => True
            end).
  { intros it0. unfold next_file, OpenFile.
    destruct (current_file_index_ it0 =? count); [reflexivity|].
    destruct (files !! N.to_nat (current_file_index_ it0)); simpl; auto. }
  unfold GetNextInternal_body.
  destruct (reader_ it) as [r|] eqn:Hr.
  - assert (Hlt : current_file_index_ it < count).
    { destruct (N.eq_dec (current_file_index_ it) count) as [E|E]; [|lia].
      specialize (Hend E). discriminate. }
    pose proof (size_t_incr_below params _ Hv Hlt) as Hincr.
    destruct (ReadRecord r) as [[value|] r1]; [simpl; lia|].
    destruct (Recover r1) as [[skipped|] r2]; [simpl; lia|].
    destruct (Close r2) as [[|] r3]; [|simpl; lia].
    specialize (Hnext {| current_file_index_ :=
                           size_t_incr (current_file_index_ it);
                         reader_ := None |}).
    destruct (next_file params ctx _); simpl in *; lia.
  - specialize (Hnext it).
    destruct (next_file params ctx it); simpl in *; lia.
Qed.

Lemma loop_index_grows n :
  forall it r it',
    valid_dataset params -> Invariant params it ->
    GetNextInternal_loop params n ctx it = Returns (r, it') ->
    current_file_index_ it <= current_file_index_ it'.
Proof.
  induction n as [|n IH]; intros it r it' Hv Hinv H; [discriminate|].
  rewrite GetNextInternal_loop_S in H.
  pose proof (body_index_grows it Hv Hinv) as Hb.
  pose proof (body_Invariant params ctx it Hv Hinv) as Hi.
  destruct (GetNextInternal_body params ctx it) as [r0 it0|it0|];
    [|specialize (IH it0 r it' Hv Hi H); lia|discriminate].
  injection H as <- <-. lia.
Qed.

(** X2: a call never moves the iterator backwards in the file list: from a
    state that satisfies the invariants, the file index after the call is at
    least the file index before, and at most the number of files. *)
Theorem GetNextInternal_index_grows it r it' :
  valid_dataset params ->
  Invariant params it ->
  GetNextInternal params ctx it = Returns (r, it') ->
  current_file_index_ it <= current_file_index_ it' <= count.
Proof.
  intros Hv Hinv H. split.
  - eapply loop_index_grows; eassumption.
  - destruct (GetNextInternal_returns params ctx it Hv Hinv)
      as (r0 & it0 & E & [Hle _]).
    rewrite E in H. injection H as <- <-. exact Hle.
Qed.

End IteratorMore.

Section EndOfSequence.
Context {RS : RecordSource}.
Variable params : Params.
Variable ctx : Env.

Local Abbreviation files := (filenames_ (dataset params)).
Local Abbreviation count := (size (dataset params)).
Local Abbreviation index_key := (full_name params "current_file_index").
Local Abbreviation pos_key := (full_name params "current_pos").

Lemma GetNext_trace_end n :
  GetNext_trace params n ctx {| current_file_index_ := count; reader_ := None |}
  = Returns (repeat end_result n).
Proof.
  induction n as [|n IH]; [reflexivity|]. simpl.
  rewrite GetNextInternal_end by reflexivity. rewrite IH. reflexivity.
Qed.

(** X3: the end of the sequence is final: once the file index is the number
    of files and no reader is open, every further call returns OK with
    [*end_of_sequence] set and no tensor, and leaves the state as it is,
    however many calls are made. *)
Theorem GetNextInternal_end_is_final it n :
  current_file_index_ it = count ->
  reader_ it = None ->
  GetNextInternal params ctx it = Returns (end_result, it) /\
  GetNext_trace params n ctx it = Returns (repeat end_result n).
Proof.
  intros Hi Hr. destruct it as [i r]. simpl in *. subst i r.
  split; [apply GetNextInternal_end; reflexivity|apply GetNext_trace_end].
Qed.

(** X4: a checkpoint taken at the end (the file index is the number of
    files, no position) restores to the end: [RestoreInternal] returns OK
    without opening a file, and every call after it signals the end of the
    sequence. *)
Theorem RestoreInternal_at_end r it n :
  r !! index_key = Some (Int64Scalar (Z.of_N count)) ->
  r !! pos_key = None ->
  RestoreInternal params ctx r it
  = Returns (tensorflow.OK,
             {| current_file_index_ := count; reader_ := None |}) /\
  GetNext_trace params n ctx
    {| current_file_index_ := count; reader_ := None |}
  = Returns (repeat end_result n).
Proof.
  intros Hidx Hpos. split; [|apply GetNext_trace_end].
  unfold RestoreInternal, ReadScalar_int64, Contains. rewrite Hidx, Hpos.
  assert (Hrange : (Z.of_N count <? 0)%Z
                   || (count <? IntCast_unsigned (Z.of_N count)) = false)
    by (apply range_check; lia).
  rewrite Hrange. unfold IntCast_unsigned. rewrite N2Z.id. reflexivity.
Qed.

(** Files with nothing to give are crossed without returning. *)
Lemma GetNextInternal_crosses_hollow_files k :
  forall i,
    valid_dataset params ->
    N.to_nat count = (N.to_nat i + k)%nat ->
    (forall j filename,
       (N.to_nat i <= j)%nat -> files !! j = Some filename ->
       yields_nothing (NewReader ctx filename)) ->
    GetNextInternal params ctx {| current_file_index_ := i; reader_ := None |}
    = Returns (end_result,
               {| current_file_index_ := count; reader_ := None |}).
Proof.
  induction k as [|k IH]; intros i Hv Hk Hall.
  - assert (i = count) as -> by lia. apply GetNextInternal_end; reflexivity.
  - destruct (lookup_file_below params i) as [f Hf]; [lia|].
    destruct (Hall _ f (le_n _) Hf) as (r1 & r2 & r3 & H1 & H2 & H3).
    rewrite (GetNextInternal_open params ctx
               {| current_file_index_ := i; reader_ := None |} f Hv eq_refl Hf).
    simpl.
    rewrite (GetNextInternal_finished params ctx
               {| current_file_index_ := i;
                  reader_ := Some (NewReader ctx f) |}
               (NewReader ctx f) r1 r2 r3 Hv)
      by (simpl; auto; lia).
    simpl. apply IH; [assumption|lia|].
    intros j filename Hj. apply Hall. lia.
Qed.

(** X5: one call crosses any number of files that have nothing to give:
    when every file from the current one on fails its first read, recovers
    nothing and closes cleanly, a call made between files returns the end of
    the sequence at once, with the file index at the number of files. An
    empty file list is the case of no file at all. *)
Theorem GetNextInternal_hollow_files i :
  valid_dataset params ->
  i <= count ->
  (forall j filename,
     (N.to_nat i <= j)%nat -> files !! j = Some filename ->
     yields_nothing (NewReader ctx filename)) ->
  GetNextInternal params ctx {| current_file_index_ := i; reader_ := None |}
  = Returns (end_result, {| current_file_index_ := count; reader_ := None |}).
Proof.
  intros Hv Hi Hall.
  apply (GetNextInternal_crosses_hollow_files (N.to_nat count - N.to_nat i) i);
    [assumption|lia|assumption].
Qed.

End EndOfSequence.

Section ExactScan.
Context {RS : RecordSource}.
Variable params : Params.
Variable ctx : Env.

Local Abbreviation files := (filenames_ (dataset params)).
Local Abbreviation count := (size (dataset params)).

Lemma scan_results_cons r rs e reports :
  scan_results ((r :: rs, e) :: reports) = r :: scan_results ((rs, e) :: reports).
Proof. destruct e; [reflexivity|]. destruct reports; reflexivity. Qed.

Lemma scan_step it r it' rs :
  GetNextInternal params ctx it = Returns (r, it') ->
  end_of_sequence r = false ->
  (exists calls, produce_until_end params calls ctx it' = Returns rs) ->
  exists calls, produce_until_end params calls ctx it = Returns (r :: rs).
Proof.
  intros Hcall Heos [calls Hp]. exists (S calls).
  rewrite produce_until_end_S, Hcall, Heos, Hp. reflexivity.
Qed.

Lemma scan_last it r it' :
  GetNextInternal params ctx it = Returns (r, it') ->
  end_of_sequence r = true ->
  exists calls, produce_until_end params calls ctx it = Returns [r].
Proof.
  intros Hcall Heos. exists 1%nat.
  rewrite produce_until_end_S, Hcall, Heos. reflexivity.
Qed.

Lemma scan_same_call a b rs :
  GetNextInternal params ctx a = GetNextInternal params ctx b ->
  (exists calls, produce_until_end params calls ctx b = Returns rs) ->
  exists calls, produce_until_end params calls ctx a = Returns rs.
Proof.
  intros H [calls Hp]. exists calls.
  rewrite (produce_until_end_same_call params ctx calls a b H). exact Hp.
Qed.

(** Reading on in an open file, then going on with the files after it. *)
Lemma scan_from_reader steps :
  forall reader i rs e reports,
    valid_dataset params ->
    i < count ->
    (reports = [] <-> i + 1 = count) ->
    file_results steps reader = Returns (rs, e) ->
    (exists calls,
       produce_until_end params calls ctx
         {| current_file_index_ := i + 1; reader_ := None |}
       = Returns (scan_results reports)) ->
    exists calls,
      produce_until_end params calls ctx
        {| current_file_index_ := i; reader_ := Some reader |}
      = Returns (scan_results ((rs, e) :: reports)).
Proof.
  induction steps as [|steps IH];
    intros reader i rs e reports Hv Hi Hlast Hread Hrest; [discriminate|].
  simpl in Hread.
  destruct (ReadRecord reader) as [[value|] r1] eqn:H1.
  - destruct (file_results steps r1) as [[rs' e']| |] eqn:Hrs; try discriminate.
    injection Hread as <- <-. rewrite scan_results_cons.
    eapply scan_step; [|reflexivity|eapply IH; eassumption].
    apply GetNextInternal_Return.
    eapply (body_record params ctx); [reflexivity|eassumption].
  - destruct (Recover r1) as [[skipped|] r2] eqn:H2.
    + destruct (file_results steps r2) as [[rs' e']| |] eqn:Hrs;
        try discriminate.
      injection Hread as <- <-. rewrite scan_results_cons.
      eapply scan_step; [|reflexivity|eapply IH; eassumption].
      apply GetNextInternal_Return.
      eapply (body_skipped params ctx); [reflexivity|eassumption..].
    + destruct (Close r2) as [[|] r3] eqn:H3; injection Hread as <- <-.
      * simpl. eapply scan_same_call; [|exact Hrest].
        apply (GetNextInternal_finished params ctx
                 {| current_file_index_ := i; reader_ := Some reader |}
                 reader r1 r2 r3); auto.
      * pose proof (GetNextInternal_Return params ctx _ _ _
                      (body_failed params ctx
                         {| current_file_index_ := i; reader_ := Some reader |}
                         reader r1 r2 r3 eq_refl H1 H2 H3)) as Hcall.
        simpl in Hcall. rewrite (size_t_incr_below params _ Hv Hi) in Hcall.
        destruct reports as [|report reports].
        -- destruct Hlast as [Hlast _]. rewrite (Hlast eq_refl) in Hcall.
           rewrite N.eqb_refl in Hcall.
           eapply scan_last; [exact Hcall|reflexivity].
        -- destruct (N.eqb_spec (i + 1) count) as [E|E].
           { destruct Hlast as [_ Hlast]. discriminate (Hlast E). }
           simpl. eapply scan_step; [exact Hcall|reflexivity|exact Hrest].
Qed.

Lemma scan_from_files (fs : list string) :
  forall (before : list string) reports,
    valid_dataset params ->
    files = (before ++ fs)%list ->
    Forall2 (file_report ctx) fs reports ->
    exists calls,
      produce_until_end params calls ctx
        {| current_file_index_ := N.of_nat (length before); reader_ := None |}
      = Returns (scan_results reports).
Proof.
  induction fs as [|f fs IH]; intros before reports Hv Hfiles Hall.
  - inversion Hall; subst. rewrite app_nil_r in Hfiles.
    eapply scan_last; [|reflexivity].
    apply GetNextInternal_end; [|reflexivity].
    simpl. unfold size. rewrite Hfiles. reflexivity.
  - inversion Hall as [|? [rs e] ? reports' [steps Hs] Hrest]; subst.
    assert (Hf : files !! N.to_nat (N.of_nat (length before)) = Some f).
    { rewrite Nat2N.id, Hfiles. apply list_lookup_middle. reflexivity. }
    eapply scan_same_call.
    { apply (GetNextInternal_open params ctx
               {| current_file_index_ := N.of_nat (length before);
                  reader_ := None |} f Hv eq_refl Hf). }
    simpl. eapply scan_from_reader;
      [assumption|eapply lookup_file_Some; exact Hf| |exact Hs|].
    + apply Forall2_length in Hrest. unfold size. rewrite Hfiles.
      rewrite length_app. simpl. split.
      * intros ->. simpl in Hrest. lia.
      * intros E. destruct reports'; [reflexivity|]. simpl in Hrest. lia.
    + replace (N.of_nat (length before) + 1)
        with (N.of_nat (length (before ++ [f])%list))
        by (rewrite length_app; simpl; lia).
      apply IH; [assumption| |assumption].
      rewrite <- app_assoc. exact Hfiles.
Qed.

(** X6: the results of a whole scan, call by call. When each file, read by
    hand, gives the report in [reports] (its records and skipped regions in
    order, and how its close went), a consumer calling [GetNextInternal]
    from a new iterator until [*end_of_sequence] is set gets exactly
    [scan_results reports]: every record and every data-loss notice once and
    in place, one error for each file whose close failed, right after that
    file's last result, and the end of the sequence last, in the same result
    as the last file's error when there is one. *)
Theorem produce_until_end_scan_results reports :
  valid_dataset params ->
  Forall2 (file_report ctx) files reports ->
  (exists calls,
     produce_until_end params calls ctx Iterator_new
     = Returns (scan_results reports)) /\
  (forall calls rs,
     produce_until_end params calls ctx Iterator_new = Returns rs ->
     rs = scan_results reports).
Proof.
  intros Hv Hall.
  pose proof (scan_from_files files [] reports Hv eq_refl Hall) as Hscan.
  split; [exact Hscan|].
  destruct Hscan as [calls0 Hp0]. intros calls rs Hp.
  exact (produce_until_end_unique params ctx _ _ _ _ _ Hp Hp0).
Qed.

End ExactScan.

Section RestoreScan.
Context {RS : RecordSource}.
Variable params : Params.
Variable ctx : Env.

Local Abbreviation files := (filenames_ (dataset params)).
Local Abbreviation count := (size (dataset params)).
Local Abbreviation index_key := (full_name params "current_file_index").
Local Abbreviation pos_key := (full_name params "current_pos").

Lemma scan_from_index (i : nat) reports :
  valid_dataset params ->
  (i <= length files)%nat ->
  Forall2 (file_report ctx) (drop i files) reports ->
  exists calls,
    produce_until_end params calls ctx
      {| current_file_index_ := N.of_nat i; reader_ := None |}
    = Returns (scan_results reports).
Proof.
  intros Hv Hi Hall.
  pose proof (scan_from_files params ctx (drop i files) (take i files) reports
                Hv (eq_sym (take_drop i files)) Hall) as H.
  rewrite length_take, Nat.min_l in H by exact Hi. exact H.
Qed.

(** X19: what a consumer gets after restoring between files. A checkpoint
    with a file index [v] within the file list and no position restores to
    the start of file [v]: the files before it are not read again, and
    calling [GetNextInternal] until [*end_of_sequence] is set gives exactly
    the results of the files from [v] on, read by hand. *)
Theorem RestoreInternal_then_scan r it v reports :
  valid_dataset params ->
  r !! index_key = Some (Int64Scalar v) ->
  r !! pos_key = None ->
  (0 <= v <= Z.of_N count)%Z ->
  Forall2 (file_report ctx) (drop (Z.to_nat v) files) reports ->
  exists it',
    RestoreInternal params ctx r it = Returns (tensorflow.OK, it') /\
    exists calls,
      produce_until_end params calls ctx it' = Returns (scan_results reports).
Proof.
  intros Hv Hidx Hpos Hrange Hall.
  exists {| current_file_index_ := Z.to_N v; reader_ := None |}. split.
  - unfold RestoreInternal, ReadScalar_int64, Contains. rewrite Hidx, Hpos.
    apply range_check in Hrange. rewrite Hrange. reflexivity.
  - replace (Z.to_N v) with (N.of_nat (Z.to_nat v)) by lia.
    apply scan_from_index; [assumption| |assumption].
    unfold size in Hrange. lia.
Qed.

(** X20: what a consumer gets after restoring into a file. A checkpoint
    with a file index [v] below the number of files and a position that
    decodes to [p] restores to a new reader on file [v] sought to [p]; when
    that reader, read on by hand, gives [report], calling
    [GetNextInternal] until [*end_of_sequence] is set gives exactly the
    results of [report] followed by those of the files after [v]. *)
Theorem RestoreInternal_position_then_scan r it v current_pos p filename steps
    report reports :
  valid_dataset params ->
  r !! index_key = Some (Int64Scalar v) ->
  r !! pos_key = Some (StringScalar current_pos) ->
  FromBytes current_pos = Some p ->
  (0 <= v)%Z ->
  files !! Z.to_nat v = Some filename ->
  file_results steps (snd (Seek p (NewReader ctx filename))) = Returns report ->
  Forall2 (file_report ctx) (drop (S (Z.to_nat v)) files) reports ->
  exists it',
    RestoreInternal params ctx r it = Returns (tensorflow.OK, it') /\
    reader_ it' = Some (snd (Seek p (NewReader ctx filename))) /\
    exists calls,
      produce_until_end params calls ctx it'
      = Returns (scan_results (report :: reports)).
Proof.
  intros Hv Hidx Hpos Hp Hv0 Hf Hreport Hall.
  pose proof (lookup_lt_Some _ _ _ Hf) as Hlt.
  assert (Hi : Z.to_N v < count) by (unfold size; lia).
  exists {| current_file_index_ := Z.to_N v;
            reader_ := Some (snd (Seek p (NewReader ctx filename))) |}.
  split; [|split; [reflexivity|]].
  - assert (Hrange : (v <? 0)%Z || (count <? IntCast_unsigned v) = false)
      by (apply range_check; unfold size; lia).
    unfold RestoreInternal, ReadScalar_int64, ReadScalar_string, Contains.
    rewrite Hidx, Hrange, Hpos. simpl. unfold IntCast_unsigned.
    destruct (N.eqb_spec (Z.to_N v) count) as [E|_]; [lia|].
    rewrite Hp. unfold OpenFile. simpl.
    replace (N.to_nat (Z.to_N v)) with (Z.to_nat v) by lia.
    rewrite Hf. reflexivity.
  - destruct report as [rs e].
    eapply (scan_from_reader params ctx steps); [assumption|exact Hi| |exact Hreport|].
    + apply Forall2_length in Hall. rewrite length_drop in Hall.
      unfold size. split.
      * intros ->. simpl in Hall. lia.
      * intros E. destruct reports; [reflexivity|]. simpl in Hall. lia.
    + replace (Z.to_N v + 1) with (N.of_nat (S (Z.to_nat v))) by lia.
      apply scan_from_index; [assumption|lia|assumption].
Qed.

End RestoreScan.

Section CheckpointMore.
Context {RS : RecordSource}.
Variable params : Params.
Variable ctx : Env.

Local Abbreviation files := (filenames_ (dataset params)).
Local Abbreviation count := (size (dataset params)).
Local Abbreviation index_key := (full_name params "current_file_index").
Local Abbreviation pos_key := (full_name params "current_pos").

Lemma ReadScalar_int64_error key r st :
  ReadScalar_int64 key r = inl st -> st <> tensorflow.OK.
Proof.
  unfold ReadScalar_int64. destruct (r !! key) as [[]|]; intros [= <-];
    discriminate.
Qed.

Lemma ReadScalar_string_error key r st :
  ReadScalar_string key r = inl st -> st <> tensorflow.OK.
Proof.
  unfold ReadScalar_string. destruct (r !! key) as [[]|]; intros [= <-];
    discriminate.
Qed.

Lemma ReadScalar_int64_inr key r v :
  ReadScalar_int64 key r = inr v <-> r !! key = Some (Int64Scalar v).
Proof.
  unfold ReadScalar_int64. destruct (r !! key) as [[]|]; split; congruence.
Qed.

Lemma ReadScalar_string_inr key r s :
  ReadScalar_string key r = inr s <-> r !! key = Some (StringScalar s).
Proof.
  unfold ReadScalar_string. destruct (r !! key) as [[]|]; split; congruence.
Qed.

Lemma Contains_false key r : Contains key r = false <-> r !! key = None.
Proof. unfold Contains. destruct (r !! key); split; congruence. Qed.

(** [RestoreInternal] reads nothing but its two keys. *)
Lemma RestoreInternal_two_keys r1 r2 it :
  r1 !! index_key = r2 !! index_key ->
  r1 !! pos_key = r2 !! pos_key ->
  RestoreInternal params ctx r1 it = RestoreInternal params ctx r2 it.
Proof.
  intros H1 H2.
  unfold RestoreInternal, ReadScalar_int64, ReadScalar_string, Contains.
  rewrite H1, H2. reflexivity.
Qed.

(** X7: when [RestoreInternal] accepts a checkpoint. It returns OK exactly
    when the checkpoint holds an [int64] file index between 0 and the number
    of files and either holds no position, or the index is below the number
    of files and the position is a string that [FromBytes] decodes. Every
    other checkpoint (no index, a negative index, an index past the end, a
    position at the end, a position that does not decode) is rejected. *)
Theorem RestoreInternal_OK_iff r it :
  (exists it', RestoreInternal params ctx r it = Returns (tensorflow.OK, it'))
  <->
  (exists v,
     r !! index_key = Some (Int64Scalar v) /\
     (0 <= v <= Z.of_N count)%Z /\
     (r !! pos_key = None \/
      ((v < Z.of_N count)%Z /\
       exists s p,
         r !! pos_key = Some (StringScalar s) /\ FromBytes s = Some p))).
Proof.
  split.
  - intros [it' H].
    destruct (RestoreInternal_restored params ctx r it)
      as (st0 & it0 & E & Hres).
    rewrite E in H. injection H as -> ->.
    inversion Hres; subst; try discriminate.
    + exfalso. eapply ReadScalar_int64_error; eauto.
    + exists v. split; [apply ReadScalar_int64_inr; assumption|].
      split; [assumption|]. left. apply Contains_false. assumption.
    + exfalso. eapply ReadScalar_string_error; eauto.
    + exists v. split; [apply ReadScalar_int64_inr; assumption|].
      split; [lia|]. right. split; [lia|].
      exists current_pos, p. split; [|assumption].
      apply ReadScalar_string_inr. assumption.
  - intros (v & Hidx & Hv & Hpos).
    assert (Hrange : (v <? 0)%Z || (count <? IntCast_unsigned v) = false)
      by (apply range_check; exact Hv).
    unfold RestoreInternal, ReadScalar_int64, ReadScalar_string, Contains.
    rewrite Hidx, Hrange.
    destruct Hpos as [Hpos|(Hlt & s & p & Hpos & Hp)]; rewrite Hpos.
    + eexists. reflexivity.
    + simpl. unfold IntCast_unsigned.
      destruct (N.eqb_spec (Z.to_N v) count) as [E|_]; [lia|].
      rewrite Hp.
      destruct (lookup_file_below params (Z.to_N v)) as [f Hf]; [lia|].
      unfold OpenFile. simpl. rewrite Hf. eexists. reflexivity.
Qed.

(** X8: what restoring a saved state gives. For a state that satisfies the
    invariants and a reader whose positions survive serialization, the
    checkpoint [SaveInternal] writes into an empty writer restores, into any
    iterator, to the same file index; with no reader open the restored state
    is the saved state itself, and with a reader open it holds a new reader
    on the file of that index, sought to the position the old one
    reported. *)
Theorem RestoreInternal_SaveInternal_state it it0 :
  valid_dataset params ->
  Invariant params it ->
  position_bytes_roundtrip ->
  exists cursor,
    SaveInternal params ∅ it = Returns (tensorflow.OK, cursor, it) /\
    match reader_ it with
    | None =>
        RestoreInternal params ctx cursor it0 = Returns (tensorflow.OK, it)
    | Some reader =>
        exists filename,
          files !! N.to_nat (current_file_index_ it) = Some filename /\
          RestoreInternal params ctx cursor it0
          = Returns (tensorflow.OK,
                     {| current_file_index_ := current_file_index_ it;
                        reader_ :=
                          Some (snd (Seek (pos reader)
                                          (NewReader ctx filename))) |})
    end.
Proof.
  intros Hv Hinv Hbytes.
  pose proof (full_name_keys_differ params) as Hne.
  pose proof (SaveInternal_Invariant params ∅ it Hv Hinv) as Hsave.
  destruct Hinv as [Hle Hend].
  assert (Hrange : (Z.of_N (current_file_index_ it) <? 0)%Z
                   || (count <? IntCast_unsigned
                                  (Z.of_N (current_file_index_ it))) = false)
    by (apply range_check; lia).
  destruct it as [i [r|]]; simpl in *.
  - eexists. split; [exact Hsave|].
    destruct (lookup_file_below params i) as [f Hf].
    { destruct (N.eq_dec i count) as [E|E]; [|lia].
      specialize (Hend E). discriminate. }
    exists f. split; [exact Hf|].
    unfold RestoreInternal, ReadScalar_int64, ReadScalar_string, Contains.
    rewrite lookup_insert_ne, lookup_insert_eq by congruence.
    rewrite Hrange, lookup_insert_eq. unfold IntCast_unsigned. simpl.
    rewrite N2Z.id.
    destruct (N.eqb_spec i count) as [E|_];
      [specialize (Hend E); discriminate|].
    rewrite Hbytes. unfold OpenFile. simpl. rewrite Hf. reflexivity.
  - eexists. split; [exact Hsave|].
    unfold RestoreInternal, ReadScalar_int64, ReadScalar_string, Contains.
    rewrite lookup_insert_eq, Hrange.
    rewrite lookup_insert_ne, lookup_empty by congruence.
    unfold IntCast_unsigned. rewrite N2Z.id. reflexivity.
Qed.

(** X9: [SaveInternal] does not clear a position an earlier save left in
    the writer. Saving at the end of the sequence into a writer that still
    holds a [current_pos] entry succeeds, and the checkpoint it leaves is
    one [RestoreInternal] rejects with the internal error
    "current_file_index out of range". *)
Theorem SaveInternal_keeps_stale_position w it it0 :
  valid_dataset params ->
  current_file_index_ it = count ->
  reader_ it = None ->
  is_Some (w !! pos_key) ->
  exists w',
    SaveInternal params w it = Returns (tensorflow.OK, w', it) /\
    w' !! pos_key = w !! pos_key /\
    RestoreInternal params ctx w' it0
    = Returns (tensorflow.errors.Internal "current_file_index out of range",
               {| current_file_index_ := count; reader_ := None |}).
Proof.
  intros Hv Hi Hr [old Hold].
  pose proof (full_name_keys_differ params) as Hne.
  assert (Hinv : Invariant params it) by (split; [lia|auto]).
  pose proof (SaveInternal_Invariant params w it Hv Hinv) as Hsave.
  rewrite Hr, Hi in Hsave. eexists. split; [exact Hsave|].
  split; [apply lookup_insert_ne; congruence|].
  assert (Hrange : (Z.of_N count <? 0)%Z
                   || (count <? IntCast_unsigned (Z.of_N count)) = false)
    by (apply range_check; lia).
  unfold RestoreInternal, ReadScalar_int64, Contains.
  rewrite lookup_insert_eq, Hrange.
  rewrite lookup_insert_ne, Hold by congruence.
  unfold IntCast_unsigned. simpl. rewrite N2Z.id, N.eqb_refl. reflexivity.
Qed.

End CheckpointMore.

Section Prefixes.
Context {RS : RecordSource}.
Variable ctx : Env.

Lemma append_cons c (a b : string) :
  (String c a ++ b)%string = String c (a ++ b)%string.
Proof. reflexivity. Qed.

Lemma append_length (a b : string) :
  String.length (a ++ b)%string = (String.length a + String.length b)%nat.
Proof.
  induction a as [|c a IH]; [reflexivity|].
  rewrite append_cons. simpl. rewrite IH. reflexivity.
Qed.

Lemma append_cancel_r (s a : string) :
  forall b, (a ++ s)%string = (b ++ s)%string -> a = b.
Proof.
  induction a as [|c a IH]; intros [|d b] H.
  - reflexivity.
  - apply (f_equal String.length) in H.
    rewrite !append_length in H. simpl in H. lia.
  - apply (f_equal String.length) in H.
    rewrite !append_length in H. simpl in H. lia.
  - rewrite !append_cons in H. injection H as -> H. f_equal. apply IH, H.
Qed.

Lemma append_assoc (a b c : string) :
  ((a ++ b) ++ c)%string = (a ++ (b ++ c))%string.
Proof.
  induction a as [|x a IH]; [reflexivity|].
  rewrite !append_cons, IH. reflexivity.
Qed.

Lemma append_last_char (a : string) :
  forall b c d,
    (a ++ String c "")%string = (b ++ String d "")%string -> c = d.
Proof.
  induction a as [|x a IH]; intros [|y b] c d H.
  - injection H as ->. reflexivity.
  - change ("" ++ String c "")%string with (String c "") in H.
    rewrite append_cons in H. injection H as _ H. destruct b; discriminate.
  - change ("" ++ String d "")%string with (String d "") in H.
    rewrite append_cons in H. injection H as _ H. destruct a; discriminate.
  - rewrite !append_cons in H. injection H as _ H. eapply IH, H.
Qed.

(** Iterators made with different prefixes never share a checkpoint key. *)
Lemma full_name_prefixes_differ ds1 ds2 prefix1 prefix2 name1 name2 :
  prefix1 <> prefix2 ->
  (name1 = "current_file_index" \/ name1 = "current_pos") ->
  (name2 = "current_file_index" \/ name2 = "current_pos") ->
  full_name (fst (MakeIteratorInternal ds1 prefix1)) name1
  <> full_name (fst (MakeIteratorInternal ds2 prefix2)) name2.
Proof.
  intros Hne H1 H2 H. unfold full_name in H. simpl in H.
  rewrite !append_assoc in H.
  destruct H1 as [-> | ->], H2 as [-> | ->].
  - apply append_cancel_r in H. contradiction.
  - change (prefix1 ++ ("::Riegeli:current_file_inde" ++ String "x" "")
            = prefix2 ++ ("::Riegeli:current_po" ++ String "s" ""))%string in H.
    rewrite <- !append_assoc in H. apply append_last_char in H. discriminate.
  - change (prefix1 ++ ("::Riegeli:current_po" ++ String "s" "")
            = prefix2 ++ ("::Riegeli:current_file_inde" ++ String "x" ""))%string
      in H.
    rewrite <- !append_assoc in H. apply append_last_char in H. discriminate.
  - apply append_cancel_r in H. contradiction.
Qed.

(** X10: iterators made by [MakeIteratorInternal] with different prefixes
    can share one checkpoint. When two such iterators, in states that
    satisfy the invariants, save one after the other into the same writer,
    restoring either of them from the shared checkpoint does what restoring
    it from a checkpoint of its own does. *)
Theorem SaveInternal_prefixes_share_writer ds1 ds2 prefix1 prefix2 it1 it2 it0 :
  let params1 := fst (MakeIteratorInternal ds1 prefix1) in
  let params2 := fst (MakeIteratorInternal ds2 prefix2) in
  prefix1 <> prefix2 ->
  valid_dataset params1 -> valid_dataset params2 ->
  Invariant params1 it1 -> Invariant params2 it2 ->
  exists w1 w2 w12,
    SaveInternal params1 ∅ it1 = Returns (tensorflow.OK, w1, it1) /\
    SaveInternal params2 ∅ it2 = Returns (tensorflow.OK, w2, it2) /\
    SaveInternal params2 w1 it2 = Returns (tensorflow.OK, w12, it2) /\
    RestoreInternal params1 ctx w12 it0 = RestoreInternal params1 ctx w1 it0 /\
    RestoreInternal params2 ctx w12 it0 = RestoreInternal params2 ctx w2 it0.
Proof.
  intros params1 params2 Hne Hv1 Hv2 Hinv1 Hinv2.
  assert (Hkeys : forall name1 name2,
            (name1 = "current_file_index" \/ name1 = "current_pos") ->
            (name2 = "current_file_index" \/ name2 = "current_pos") ->
            full_name params1 name1 <> full_name params2 name2)
    by (intros; apply full_name_prefixes_differ; assumption).
  pose proof (full_name_keys_differ params2) as Hne2.
  do 3 eexists.
  split; [apply SaveInternal_Invariant; assumption|].
  split; [apply SaveInternal_Invariant; assumption|].
  split; [apply SaveInternal_Invariant; assumption|].
  split; apply RestoreInternal_two_keys.
  - destruct (reader_ it2);
      rewrite !lookup_insert_ne by (apply not_eq_sym, Hkeys; auto); reflexivity.
  - destruct (reader_ it2);
      rewrite !lookup_insert_ne by (apply not_eq_sym, Hkeys; auto); reflexivity.
  - destruct (reader_ it2).
    + rewrite !(lookup_insert_ne _ (full_name params2 "current_pos")) by congruence.
      rewrite !lookup_insert_eq. reflexivity.
    + rewrite !lookup_insert_eq. reflexivity.
  - destruct (reader_ it2).
    + rewrite !lookup_insert_eq. reflexivity.
    + rewrite !(lookup_insert_ne _ (full_name params2 "current_file_index"))
        by congruence.
      destruct (reader_ it1);
        rewrite !lookup_insert_ne by (apply Hkeys; auto); reflexivity.
Qed.

End Prefixes.

Section MakeDatasetFacts.

Lemma MakeDataset_loop_copies fuel :
  forall t i filenames,
    (NumElements t <= INT_MAX)%Z ->
    (0 <= i <= NumElements t)%Z ->
    (Z.to_nat (NumElements t - i) < fuel)%nat ->
    filenames = take (Z.to_nat i) (flat t) ->
    MakeDataset_loop fuel t i filenames = Returns (flat t).
Proof.
  induction fuel as [|fuel IH]; intros t i filenames Hmax Hi Hfuel Hacc; [lia|].
  simpl. unfold NumElements in *.
  destruct (Z.ltb_spec i (Z.of_nat (length (flat t)))) as [Hlt|Hge].
  - destruct (lookup_lt_is_Some_2 (flat t) (Z.to_nat i)) as [f Hf]; [lia|].
    rewrite Hf.
    destruct (Z.eqb_spec i INT_MAX) as [E|_]; [lia|].
    apply IH; [assumption|lia|lia|].
    replace (Z.to_nat (i + 1)) with (S (Z.to_nat i)) by lia.
    rewrite (take_S_r _ _ _ Hf), Hacc. reflexivity.
  - rewrite Hacc. f_equal. apply take_ge. lia.
Qed.

(** X11: [MakeDataset] keeps the file names as the tensor has them. Given a
    [filenames] tensor of at most one dimension (a scalar or a vector) with
    no more elements than an [int] counts, the dataset it makes lists
    exactly the tensor's elements, in the tensor's order, and is of a size a
    vector can have; a tensor of more dimensions is refused with an
    invalid-argument error and no dataset is made; and when the input cannot
    be fetched its error is the outcome. *)
Theorem MakeDataset_filenames t :
  ((dims t <= 1)%Z -> (NumElements t <= INT_MAX)%Z ->
   MakeDataset (inr t)
   = Returns (tensorflow.OK, Some {| filenames_ := flat t |}) /\
   forall prefix,
     valid_dataset {| dataset := {| filenames_ := flat t |};
                      prefix := prefix |}) /\
  ((1 < dims t)%Z ->
   MakeDataset (inr t)
   = Returns (tensorflow.errors.InvalidArgument
                "`filenames` must be a scalar or a vector.", None)) /\
  (forall st, MakeDataset (inl st) = Returns (st, None)).
Proof.
  split; [|split].
  - intros Hd Hn. split.
    + unfold MakeDataset. destruct (Z.leb_spec (dims t) 1); [|lia].
      rewrite (MakeDataset_loop_copies _ t 0 []); try reflexivity;
        unfold NumElements in *; lia.
    + intros prefix. unfold valid_dataset, size, max_size. simpl.
      unfold NumElements, INT_MAX in Hn. lia.
  - intros Hd. unfold MakeDataset. destruct (Z.leb_spec (dims t) 1); [lia|].
    reflexivity.
  - reflexivity.
Qed.

End MakeDatasetFacts.

(** * The further properties on the in-memory source *)

Import InMemoryMore.

Lemma Invariant_first_record :
  Invariant (RS := source) files_ab (at_chunk "a" 0 1).
Proof. split; [vm_compute; discriminate|intros H; discriminate H]. Qed.

Lemma GetNextInternal_well_shaped_witness :
  (length ["a2"] <= 1)%nat /\
  (["a2"] <> [] ->
   tensorflow.OK = tensorflow.OK /\ false = false /\
   reader_ (at_chunk "a" 0 2) <> None) /\
  (false = true ->
   ["a2"] = [] /\ 0 = size (dataset files_ab) /\
   reader_ (at_chunk "a" 0 2) = None).
Proof.
  exact (GetNextInternal_well_shaped (RS := source) files_ab disk
           (at_chunk "a" 0 1) (record_result "a2") (at_chunk "a" 0 2)
           eq_refl).
Defined.

Lemma GetNextInternal_index_grows_witness :
  current_file_index_ (at_chunk "a" 0 1)
  <= current_file_index_ (at_chunk "a" 0 2) <= size (dataset files_ab).
Proof.
  exact (GetNextInternal_index_grows (RS := source) files_ab disk
           (at_chunk "a" 0 1) (record_result "a2") (at_chunk "a" 0 2)
           valid_files_ab Invariant_first_record eq_refl).
Defined.

Lemma GetNextInternal_end_is_final_witness :
  GetNextInternal (RS := source) files_ab disk (between_files 2)
  = Returns (end_result, between_files 2) /\
  GetNext_trace (RS := source) files_ab 3 disk (between_files 2)
  = Returns [end_result; end_result; end_result].
Proof.
  exact (GetNextInternal_end_is_final (RS := source) files_ab disk
           (between_files 2) 3 eq_refl eq_refl).
Defined.

Lemma RestoreInternal_at_end_witness :
  RestoreInternal (RS := source) files_ab disk (checkpoint files_ab 2 None)
                  (at_chunk "a" 0 1)
  = Returns (tensorflow.OK, between_files 2) /\
  GetNext_trace (RS := source) files_ab 2 disk (between_files 2)
  = Returns [end_result; end_result].
Proof.
  apply (RestoreInternal_at_end (RS := source) files_ab disk
           (checkpoint files_ab 2 None) (at_chunk "a" 0 1) 2).
  - vm_compute. reflexivity.
  - vm_compute. reflexivity.
Defined.

Lemma valid_files_hollow : valid_dataset files_hollow.
Proof. unfold valid_dataset. vm_compute. discriminate. Qed.

Lemma hollow_disk_yields_nothing j filename :
  (N.to_nat 0 <= j)%nat ->
  filenames_ (dataset files_hollow) !! j = Some filename ->
  yields_nothing (RS := source) (@NewReader source hollow_disk filename).
Proof.
  intros _ H.
  repeat (destruct j as [|j];
          [injection H as <-; do 3 eexists; repeat split; reflexivity|]).
  discriminate.
Qed.

(** Three empty files are crossed by the first call. *)
Lemma GetNextInternal_hollow_files_witness :
  GetNextInternal (RS := source) files_hollow hollow_disk (between_files 0)
  = Returns (end_result, between_files 3).
Proof.
  apply (GetNextInternal_hollow_files (RS := source) files_hollow hollow_disk
           0 valid_files_hollow).
  - vm_compute. discriminate.
  - exact hollow_disk_yields_nothing.
Defined.

(** The scan of ["a"; "c"; "b"]: the records of "a", the notice for its
    corrupt trailer, the record of "c", the error of "c", the records of "b"
    and the end. *)
Lemma produce_until_end_scan_results_witness :
  exists calls,
    produce_until_end (RS := source) files_acb calls disk Iterator_new
    = Returns [record_result "a1"; record_result "a2"; record_result "a3";
               skipped_result (RS := source) "trailer";
               record_result "c1"; failed_result data_loss false;
               record_result "b1"; record_result "b2"; end_result].
Proof.
  apply (produce_until_end_scan_results (RS := source) files_acb disk
           [([record_result "a1"; record_result "a2"; record_result "a3";
              skipped_result (RS := source) "trailer"], EndsCleanly);
            ([record_result "c1"], EndsFailed data_loss);
            ([record_result "b1"; record_result "b2"], EndsCleanly)]
           valid_files_acb).
  repeat constructor; [exists 5%nat|exists 2%nat|exists 3%nat]; reflexivity.
Defined.

Lemma RestoreInternal_SaveInternal_state_witness :
  exists cursor,
    SaveInternal (RS := source) files_ab ∅ (at_chunk "a" 0 1)
    = Returns (tensorflow.OK, cursor, at_chunk "a" 0 1) /\
    exists filename,
      filenames_ (dataset files_ab) !! N.to_nat 0 = Some filename /\
      RestoreInternal (RS := source) files_ab disk cursor (between_files 2)
      = Returns (tensorflow.OK,
                 {| current_file_index_ := 0;
                    reader_ :=
                      Some (snd (@Seek source 1%nat
                                   (@NewReader source disk filename))) |}).
Proof.
  exact (RestoreInternal_SaveInternal_state (RS := source) files_ab disk
           (at_chunk "a" 0 1) (between_files 2) valid_files_ab
           Invariant_first_record source_position_bytes_roundtrip).
Defined.

(** A writer that holds the position of an earlier save, used again at the
    end of the sequence. *)
Lemma SaveInternal_keeps_stale_position_witness :
  exists w',
    SaveInternal (RS := source) files_ab (checkpoint files_ab 0 (Some "x"))
                 (between_files 2)
    = Returns (tensorflow.OK, w', between_files 2) /\
    w' !! full_name files_ab "current_pos"
    = checkpoint files_ab 0 (Some "x") !! full_name files_ab "current_pos" /\
    RestoreInternal (RS := source) files_ab disk w' Iterator_new
    = Returns (tensorflow.errors.Internal "current_file_index out of range",
               between_files 2).
Proof.
  apply (SaveInternal_keeps_stale_position (RS := source) files_ab disk
           (checkpoint files_ab 0 (Some "x")) (between_files 2) Iterator_new
           valid_files_ab eq_refl eq_refl).
  vm_compute. eexists. reflexivity.
Defined.

Lemma SaveInternal_prefixes_share_writer_witness :
  exists w1 w2 w12,
    SaveInternal (RS := source)
      (fst (MakeIteratorInternal (RS := source) (dataset files_ab) "A"))
      ∅ (at_chunk "a" 0 1)
    = Returns (tensorflow.OK, w1, at_chunk "a" 0 1) /\
    SaveInternal (RS := source)
      (fst (MakeIteratorInternal (RS := source) (dataset files_ab) "B"))
      ∅ (between_files 2)
    = Returns (tensorflow.OK, w2, between_files 2) /\
    SaveInternal (RS := source)
      (fst (MakeIteratorInternal (RS := source) (dataset files_ab) "B"))
      w1 (between_files 2)
    = Returns (tensorflow.OK, w12, between_files 2) /\
    RestoreInternal (RS := source)
      (fst (MakeIteratorInternal (RS := source) (dataset files_ab) "A"))
      disk w12 Iterator_new
    = RestoreInternal (RS := source)
        (fst (MakeIteratorInternal (RS := source) (dataset files_ab) "A"))
        disk w1 Iterator_new /\
    RestoreInternal (RS := source)
      (fst (MakeIteratorInternal (RS := source) (dataset files_ab) "B"))
      disk w12 Iterator_new
    = RestoreInternal (RS := source)
        (fst (MakeIteratorInternal (RS := source) (dataset files_ab) "B"))
        disk w2 Iterator_new.
Proof.
  apply (SaveInternal_prefixes_share_writer (RS := source) disk
           (dataset files_ab) (dataset files_ab) "A" "B"
           (at_chunk "a" 0 1) (between_files 2) Iterator_new).
  - discriminate.
  - unfold valid_dataset. vm_compute. discriminate.
  - unfold valid_dataset. vm_compute. discriminate.
  - split; [vm_compute; discriminate|intros H; discriminate H].
  - split; [vm_compute; discriminate|reflexivity].
Defined.

(** * The file descriptor collector *)

Module PythonFacts.
Import python.
Local Open Scope list_scope.

Lemma descriptor_induction (P : PyFileDescriptor -> Prop) :
  (forall name dependencies raises copy,
     Forall P (default [] dependencies) ->
     P (FileDescriptorObject name dependencies raises copy)) ->
  forall fd, P fd.
Proof.
  intros H. fix IH 1. intros [name dependencies raises copy]. apply H.
  destruct dependencies as [ds|]; [|constructor]. simpl.
  induction ds as [|d ds IHds]; constructor; [apply IH|exact IHds].
Qed.

Lemma AddFile_dependencies_nil add self :
  AddFile_dependencies add [] self = (true, self).
Proof. reflexivity. Qed.

Lemma AddFile_dependencies_cons add d ds self :
  AddFile_dependencies add (d :: ds) self
  = match add d self with
    | (false, self) => (false, self)
    | (true, self) => AddFile_dependencies add ds self
    end.
Proof. reflexivity. Qed.


Lemma genuine_shape fd :
  genuine fd ->
  exists name ds,
    fd = FileDescriptorObject (Some (Str name)) (Some ds) false
                              (Some (proto_of fd)) /\
    Forall genuine ds.
Proof.
  destruct fd as [[[n|]|] [ds|] [|] [p|]]; simpl; try contradiction.
  intros [-> Hall]. exists n, ds. split; [reflexivity|].
  induction ds as [|d ds IH]; constructor; [apply Hall|apply IH, Hall].
Qed.

Lemma acyclic_shape name ds raises copy :
  acyclic (FileDescriptorObject name (Some ds) raises copy) ->
  (descriptor_name (FileDescriptorObject name (Some ds) raises copy)
   ∉ descriptor_name
       <$> imports (FileDescriptorObject name (Some ds) raises copy)) /\
  Forall acyclic ds.
Proof.
  intros [Hn Hall]. split; [exact Hn|]. clear Hn.
  induction ds as [|d ds IH]; constructor; [apply Hall|apply IH, Hall].
Qed.

Lemma imports_dependency name ds raises copy d :
  d ∈ ds -> d ∈ imports (FileDescriptorObject name (Some ds) raises copy).
Proof.
  intros Hd. simpl. apply list_elem_of_In, in_flat_map. exists d.
  split; [apply list_elem_of_In, Hd|left; reflexivity].
Qed.

Lemma imports_below name ds raises copy d x :
  d ∈ ds -> x ∈ imports d ->
  x ∈ imports (FileDescriptorObject name (Some ds) raises copy).
Proof.
  intros Hd Hx. simpl. apply list_elem_of_In, in_flat_map. exists d.
  split; [apply list_elem_of_In, Hd|right; apply list_elem_of_In, Hx].
Qed.

Lemma dependencies_first_snoc protos proto :
  dependencies_first protos ->
  (forall d, d ∈ proto_dependency proto -> d ∈ proto_name <$> protos) ->
  dependencies_first (protos ++ [proto]).
Proof.
  intros Hfirst Hlast i p d Hi Hd.
  destruct (decide (i < length protos)%nat) as [Hlt|Hge].
  - rewrite lookup_app_l in Hi by exact Hlt.
    rewrite take_app_le by lia. eapply Hfirst; eassumption.
  - rewrite lookup_app_r in Hi by lia.
    destruct (i - length protos)%nat as [|k] eqn:E; [|discriminate].
    injection Hi as <-.
    rewrite take_app_length' by lia. apply Hlast, Hd.
Qed.

(** A collector stays ready for a scope after files were added to it. *)
Lemma ready_after scope scope0 self new seen :
  ready scope self ->
  adds scope0 self new seen ->
  ready scope {| file_descriptors_ := file_descriptors_ self ++ new;
                 files_seen_ := seen |}.
Proof.
  intros (Hpending & Hout & Hnodup & Hfirst) (Hseen & _ & Hfresh & Hnew & Hord).
  unfold ready. simpl. rewrite fmap_app. repeat split.
  - intros n Hn Hs. apply elem_of_app. apply Hseen in Hs as [Hs|Hs]; auto.
  - intros n Hn. apply Hseen. apply elem_of_app in Hn as [Hn|Hn]; auto.
  - apply NoDup_app. repeat split; [exact Hnodup| |exact Hnew].
    intros n Hn Hn'. apply (Hfresh n Hn'), Hout, Hn.
  - exact Hord.
Qed.

(** The loop over the dependencies of a file, for genuine files. *)
Lemma AddFile_dependencies_genuine scope ds :
  Forall (fun d =>
            genuine d -> acyclic d ->
            forall self,
              ready (d :: imports d) self ->
              exists new seen,
                AddFile d self
                = (true, {| file_descriptors_ := file_descriptors_ self ++ new;
                            files_seen_ := seen |}) /\
                adds (d :: imports d) self new seen /\
                descriptor_name d
                ∈ proto_name <$> (file_descriptors_ self ++ new) /\
                (descriptor_name d ∉ files_seen_ self ->
                 exists new0, new = new0 ++ [proto_of d])) ds ->
  Forall genuine ds -> Forall acyclic ds ->
  (forall d x, d ∈ ds -> x ∈ d :: imports d -> x ∈ scope) ->
  forall self,
    ready scope self ->
    exists new seen,
      AddFile_dependencies AddFile ds self
      = (true, {| file_descriptors_ := file_descriptors_ self ++ new;
                  files_seen_ := seen |}) /\
      adds scope self new seen /\
      forall d, d ∈ ds ->
                descriptor_name d ∈ proto_name <$> (file_descriptors_ self ++ new).
Proof.
  induction 1 as [|d ds Hd _ IH]; intros Hgen Hacy Hscope self Hready.
  - exists [], (files_seen_ self). rewrite app_nil_r.
    destruct Hready as (_ & _ & _ & Hfirst).
    split; [destruct self; reflexivity|]. split.
    + unfold adds. rewrite app_nil_r. simpl. repeat split; auto.
      * intros [H|H]; [exact H|]. apply elem_of_nil in H. contradiction.
      * intros p Hp. apply elem_of_nil in Hp. contradiction.
      * intros n Hn. apply elem_of_nil in Hn. contradiction.
      * constructor.
    + intros d Hd. apply elem_of_nil in Hd. contradiction.
  - apply Forall_cons in Hgen as [Hgd Hgen].
    apply Forall_cons in Hacy as [Had Hacy].
    assert (Hready_d : ready (d :: imports d) self).
    { destruct Hready as (Hpending & Hrest). split; [|exact Hrest].
      intros n Hn. apply Hpending.
      apply list_elem_of_fmap in Hn as (x & -> & Hx).
      apply list_elem_of_fmap. exists x. split; [reflexivity|].
      eapply Hscope; [left|exact Hx]. }
    destruct (Hd Hgd Had self Hready_d)
      as (new1 & seen1 & Hcall & Hadds1 & Hname1 & _).
    rewrite AddFile_dependencies_cons, Hcall.
    pose proof (ready_after scope _ self new1 seen1 Hready Hadds1) as Hready1.
    destruct (IH Hgen Hacy (fun d' x H => Hscope d' x (list_elem_of_further _ _ _ H))
                 _ Hready1)
      as (new2 & seen2 & Hloop & Hadds2 & Hnames2).
    simpl in Hloop, Hadds2, Hnames2.
    exists (new1 ++ new2), seen2. rewrite app_assoc.
    split; [exact Hloop|]. split.
    + destruct Hadds1 as (Hseen1 & Hfrom1 & Hfresh1 & Hnodup1 & _).
      destruct Hadds2 as (Hseen2 & Hfrom2 & Hfresh2 & Hnodup2 & Hord2).
      simpl in *. unfold adds. rewrite fmap_app. repeat split.
      * intros Hn. apply Hseen2 in Hn as [Hn|Hn].
        -- apply Hseen1 in Hn as [Hn|Hn]; [left; exact Hn|].
           right. apply elem_of_app. left. exact Hn.
        -- right. apply elem_of_app. right. exact Hn.
      * intros [Hn|Hn]; apply Hseen2.
        -- left. apply Hseen1. left. exact Hn.
        -- apply elem_of_app in Hn as [Hn|Hn]; [left|right; exact Hn].
           apply Hseen1. right. exact Hn.
      * intros p Hp. apply elem_of_app in Hp as [Hp|Hp].
        -- destruct (Hfrom1 p Hp) as (x & Hx & ->). exists x.
           split; [|reflexivity]. eapply Hscope; [left|exact Hx].
        -- apply Hfrom2, Hp.
      * intros n Hn Hs. apply elem_of_app in Hn as [Hn|Hn].
        -- apply (Hfresh1 n Hn Hs).
        -- apply (Hfresh2 n Hn). apply Hseen1. left. exact Hs.
      * apply NoDup_app. repeat split; [exact Hnodup1| |exact Hnodup2].
        intros n Hn Hn'. apply (Hfresh2 n Hn'). apply Hseen1. right. exact Hn.
      * rewrite app_assoc. exact Hord2.
    + intros d' Hd'. rewrite fmap_app. apply elem_of_cons in Hd' as [->|Hd'].
      * apply elem_of_app. left. exact Hname1.
      * rewrite <- fmap_app. apply Hnames2, Hd'.
Qed.

(** Adding a genuine file to a collector that is ready for it. *)
Lemma AddFile_genuine fd :
  genuine fd -> acyclic fd ->
  forall self,
    ready (fd :: imports fd) self ->
    exists new seen,
      AddFile fd self
      = (true, {| file_descriptors_ := file_descriptors_ self ++ new;
                  files_seen_ := seen |}) /\
      adds (fd :: imports fd) self new seen /\
      descriptor_name fd ∈ proto_name <$> (file_descriptors_ self ++ new) /\
      (descriptor_name fd ∉ files_seen_ self ->
       exists new0, new = new0 ++ [proto_of fd]).
Proof.
  induction fd as [name dependencies raises copy IH] using descriptor_induction.
  intros Hgen Hacy self Hready.
  destruct (genuine_shape _ Hgen) as (n & ds & Hfd & Hgens).
  injection Hfd as -> -> -> Hcopy.
  apply acyclic_shape in Hacy as [Hself Hacys].
  set (fd := FileDescriptorObject (Some (Str n)) (Some ds) false copy) in *.
  change (descriptor_name fd) with n in *.
  simpl in IH. simpl AddFile.
  destruct (decide (n ∈ files_seen_ self)) as [Hseen|Hfresh].
  - exists [], (files_seen_ self). rewrite app_nil_r.
    destruct Hready as (Hpending & _ & _ & Hfirst).
    split; [destruct self; reflexivity|]. split; [|split].
    + unfold adds. rewrite app_nil_r. simpl. repeat split; auto.
      * intros [H|H]; [exact H|]. apply elem_of_nil in H. contradiction.
      * intros p Hp. apply elem_of_nil in Hp. contradiction.
      * intros m Hm. apply elem_of_nil in Hm. contradiction.
      * constructor.
    + apply Hpending; [|exact Hseen]. rewrite fmap_cons. left.
    + intros H. contradiction.
  - set (self1 := {| file_descriptors_ := file_descriptors_ self;
                     files_seen_ := {[n]} ∪ files_seen_ self |}).
    assert (Hready1 : ready (imports fd) self1).
    { destruct Hready as (Hpending & Hout & Hrest). split; [|split].
      - intros m Hm Hs. simpl in Hs. apply elem_of_union in Hs as [Hs|Hs].
        + apply elem_of_singleton in Hs. subst m. contradiction.
        + apply Hpending; [|exact Hs]. rewrite fmap_cons. right. exact Hm.
      - intros m Hm. simpl. apply elem_of_union. right. apply Hout, Hm.
      - exact Hrest. }
    destruct (AddFile_dependencies_genuine (imports fd) ds IH Hgens Hacys)
      with (self := self1) as (new & seen & Hloop & Hadds & Hnames).
    { intros d x Hd Hx. apply elem_of_cons in Hx as [->|Hx].
      - eapply imports_dependency, Hd.
      - eapply imports_below; eassumption. }
    { exact Hready1. }
    rewrite Hloop. rewrite Hcopy. simpl.
    exists (new ++ [proto_of fd]), seen. rewrite app_assoc.
    split; [reflexivity|].
    destruct Hadds as (Hseen & Hfrom & Hfreshnew & Hnodup & Hord).
    simpl in Hseen, Hfreshnew, Hord, Hnames.
    assert (Hn_new : n ∉ proto_name <$> new).
    { intros H. apply (Hfreshnew n H). apply elem_of_union. left.
      apply elem_of_singleton. reflexivity. }
    split; [|split].
    + unfold adds. rewrite fmap_app. simpl.
      split; [intros m; split|split; [|split; [|split]]].
      * intros Hm. apply Hseen in Hm as [Hm|Hm].
        -- apply elem_of_union in Hm as [Hm|Hm]; [|left; exact Hm].
           apply elem_of_singleton in Hm. subst m. right.
           apply elem_of_app. right. left.
        -- right. apply elem_of_app. left. exact Hm.
      * intros [Hm|Hm]; apply Hseen.
        -- left. apply elem_of_union. right. exact Hm.
        -- apply elem_of_app in Hm as [Hm|Hm]; [right; exact Hm|].
           apply list_elem_of_singleton in Hm. subst m. left.
           apply elem_of_union. left. apply elem_of_singleton. reflexivity.
      * intros p Hp. apply elem_of_app in Hp as [Hp|Hp].
        -- destruct (Hfrom p Hp) as (x & Hx & ->). exists x.
           split; [right; exact Hx|reflexivity].
        -- apply list_elem_of_singleton in Hp. subst p. exists fd.
           split; [left|reflexivity].
      * intros m Hm Hs. apply elem_of_app in Hm as [Hm|Hm].
        -- apply (Hfreshnew m Hm). apply elem_of_union. right. exact Hs.
        -- apply list_elem_of_singleton in Hm. subst m. contradiction.
      * apply NoDup_app. repeat split; [exact Hnodup| |apply NoDup_singleton].
        intros m Hm Hm'. apply list_elem_of_singleton in Hm'. subst m.
        contradiction.
      * rewrite app_assoc. apply dependencies_first_snoc; [exact Hord|].
        intros d Hd. simpl in Hd.
        apply list_elem_of_fmap in Hd as (x & -> & Hx). apply Hnames, Hx.
    + rewrite fmap_app. apply elem_of_app. right. left.
    + intros _. exists new. reflexivity.
Qed.

Lemma ready_Init scope : ready scope (Init []).2.
Proof.
  unfold ready. simpl. repeat split.
  - intros n _ H. apply elem_of_empty in H. contradiction.
  - intros n H. apply elem_of_nil in H. contradiction.
  - constructor.
  - intros i proto d H. rewrite lookup_nil in H. discriminate.
Qed.

(** X12: what the collector makes of a genuine file. Started on an empty
    container with the descriptor of a file whose imports are genuine and do
    not loop, [AddFile] succeeds and leaves in the container the messages of
    files of the import tree only, no file name twice, every file after all
    the files it imports, and the file it was given last; the names it has
    seen are the names of those messages. *)
Theorem AddFile_dependencies_first fd :
  genuine fd -> acyclic fd ->
  exists protos seen,
    AddFile fd (Init []).2
    = (true, {| file_descriptors_ := protos; files_seen_ := seen |}) /\
    NoDup (proto_name <$> protos) /\
    dependencies_first protos /\
    (forall p, p ∈ protos -> exists x, x ∈ fd :: imports fd /\ p = proto_of x) /\
    last protos = Some (proto_of fd) /\
    (forall n, n ∈ seen <-> n ∈ proto_name <$> protos).
Proof.
  intros Hgen Hacy.
  destruct (AddFile_genuine fd Hgen Hacy _ (ready_Init _))
    as (new & seen & Hcall & Hadds & _ & Hlast).
  simpl in Hcall, Hadds, Hlast.
  destruct Hadds as (Hseen & Hfrom & _ & Hnodup & Hord). simpl in *.
  exists new, seen. split; [exact Hcall|]. repeat split; auto.
  - destruct Hlast as [new0 ->]; [apply not_elem_of_empty|]. apply last_snoc.
  - intros H. apply Hseen in H as [H|H]; [|exact H].
    apply elem_of_empty in H. contradiction.
  - intros H. apply Hseen. right. exact H.
Qed.

(** In a list in which imports come first, made of messages of files of a
    consistent tree, the message of a file brings those of its imports. *)
Lemma imports_collected root protos fd :
  consistent root ->
  dependencies_first protos ->
  (forall p, p ∈ protos -> exists x, x ∈ root :: imports root /\ p = proto_of x) ->
  (forall x, x ∈ fd :: imports fd -> x ∈ root :: imports root) ->
  proto_of fd ∈ protos ->
  forall x, x ∈ imports fd -> proto_of x ∈ protos.
Proof.
  intros Hcons Hord Hfrom.
  induction fd as [name dependencies raises copy IH] using descriptor_induction.
  intros Hsub Hfd x Hx.
  destruct dependencies as [ds|]; [|apply elem_of_nil in Hx; contradiction].
  simpl in IH, Hx.
  apply list_elem_of_In, in_flat_map in Hx as (d & Hd & Hx).
  apply list_elem_of_In in Hd.
  assert (Hd_root : forall y, y ∈ d :: imports d -> y ∈ root :: imports root).
  { intros y Hy. apply Hsub. right. apply elem_of_cons in Hy as [->|Hy].
    - eapply imports_dependency, Hd.
    - eapply imports_below; eassumption. }
  assert (Hdp : proto_of d ∈ protos).
  { apply list_elem_of_lookup in Hfd as [i Hi].
    assert (Hdep : descriptor_name d
                   ∈ proto_dependency
                       (proto_of (FileDescriptorObject name (Some ds) raises copy))).
    { simpl. apply list_elem_of_fmap. exists d. auto. }
    pose proof (Hord i _ _ Hi Hdep) as Hin.
    apply list_elem_of_fmap in Hin as (q & Hq & Hqin).
    assert (Hq' : q ∈ protos).
    { rewrite <- (take_drop i protos). apply elem_of_app. left. exact Hqin. }
    destruct (Hfrom q Hq') as (y & Hy & ->).
    replace (proto_of d) with (proto_of y); [exact Hq'|].
    unfold proto_of. simpl in Hq. rewrite <- Hq. f_equal.
    apply Hcons; [exact Hy|apply Hd_root; left|symmetry; exact Hq]. }
  destruct Hx as [<-|Hx]; [exact Hdp|].
  apply list_elem_of_In in Hx.
  rewrite Forall_forall in IH. apply (IH d Hd Hd_root Hdp x Hx).
Qed.

(** X13: nothing is left out. When moreover the files of the import tree
    that bear the same name import files of the same names (as the
    descriptors of one descriptor pool do), the container ends with the
    message of every file of the tree: the file given and all it imports,
    directly or not. *)
Theorem AddFile_collects_all_imports fd :
  genuine fd -> acyclic fd -> consistent fd ->
  exists protos seen,
    AddFile fd (Init []).2
    = (true, {| file_descriptors_ := protos; files_seen_ := seen |}) /\
    forall x, x ∈ fd :: imports fd -> proto_of x ∈ protos.
Proof.
  intros Hgen Hacy Hcons.
  destruct (AddFile_genuine fd Hgen Hacy _ (ready_Init _))
    as (new & seen & Hcall & Hadds & Hname & Hlast).
  simpl in Hcall, Hadds, Hname, Hlast.
  destruct Hadds as (_ & Hfrom & _ & _ & Hord). simpl in *.
  exists new, seen. split; [exact Hcall|].
  assert (Hroot : proto_of fd ∈ new).
  { destruct Hlast as [new0 ->]; [apply not_elem_of_empty|].
    apply elem_of_app. right. left. }
  intros x Hx. apply elem_of_cons in Hx as [->|Hx]; [exact Hroot|].
  apply (imports_collected fd new fd Hcons Hord Hfrom (fun y H => H) Hroot x Hx).
Qed.

(** X15: [SetRecordType] replaces what the metadata held. For a message
    type whose descriptor has a name and a genuine file with imports that do
    not loop, it returns [None] and leaves the metadata with that name as
    [record_type_name] and with the messages the collector makes from an
    empty container as [file_descriptor]: whatever name and messages the
    metadata held before are gone, so that the outcome is the same for any
    other metadata. *)
Theorem SetRecordType_replaces metadata metadata' message_type descriptor
    name fd :
  DESCRIPTOR message_type = Some descriptor ->
  full_name descriptor = Some name ->
  file descriptor = Some fd ->
  genuine fd -> acyclic fd ->
  SetRecordType metadata message_type
  = (true, {| record_type_name := name;
              file_descriptor :=
                file_descriptors_ (AddFile fd (Init []).2).2 |}) /\
  SetRecordType metadata' message_type = SetRecordType metadata message_type.
Proof.
  intros HD Hname Hfile Hgen Hacy.
  unfold SetRecordType. rewrite HD, Hname, Hfile. simpl.
  destruct (AddFile_genuine fd Hgen Hacy _ (ready_Init _))
    as (new & seen & Hcall & _).
  simpl in Hcall. unfold Init. simpl. rewrite Hcall. simpl.
  split; reflexivity.
Qed.

(** *** The three files *)

Import PythonExamples.

Lemma genuine_a_proto : genuine a_proto.
Proof. simpl. repeat split. Qed.

Lemma acyclic_a_proto : acyclic a_proto.
Proof.
  simpl. repeat split; intros H;
    repeat (apply elem_of_cons in H as [H|H]; [discriminate H|]);
    apply elem_of_nil in H; exact H.
Qed.

Lemma consistent_a_proto : consistent a_proto.
Proof.
  intros x y Hx Hy. simpl in Hx, Hy.
  repeat (apply elem_of_cons in Hx as [->|Hx]);
    try (apply elem_of_nil in Hx; contradiction);
    repeat (apply elem_of_cons in Hy as [->|Hy]);
    try (apply elem_of_nil in Hy; contradiction);
    intros H; try discriminate H; reflexivity.
Qed.

Lemma AddFile_dependencies_first_witness :
  exists protos seen,
    AddFile a_proto (Init []).2
    = (true, {| file_descriptors_ := protos; files_seen_ := seen |}) /\
    NoDup (proto_name <$> protos) /\
    dependencies_first protos /\
    (forall p, p ∈ protos ->
               exists x, x ∈ a_proto :: imports a_proto /\ p = proto_of x) /\
    last protos = Some (proto_of a_proto) /\
    (forall n, n ∈ seen <-> n ∈ proto_name <$> protos).
Proof.
  exact (AddFile_dependencies_first a_proto genuine_a_proto acyclic_a_proto).
Defined.

Lemma AddFile_collects_all_imports_witness :
  exists protos seen,
    AddFile a_proto (Init []).2
    = (true, {| file_descriptors_ := protos; files_seen_ := seen |}) /\
    forall x, x ∈ a_proto :: imports a_proto -> proto_of x ∈ protos.
Proof.
  exact (AddFile_collects_all_imports a_proto genuine_a_proto acyclic_a_proto
           consistent_a_proto).
Defined.

(** The messages come out imports first: ["c.proto"], ["b.proto"],
    ["a.proto"], and what the metadata held is gone. *)
Lemma SetRecordType_replaces_witness :
  SetRecordType old_metadata message_a
  = (true, {| record_type_name := "pkg.A";
              file_descriptor :=
                [proto_of c_proto; proto_of b_proto; proto_of a_proto] |}) /\
  SetRecordType {| record_type_name := ""; file_descriptor := [] |} message_a
  = SetRecordType old_metadata message_a.
Proof.
  exact (SetRecordType_replaces old_metadata
           {| record_type_name := ""; file_descriptor := [] |} message_a
           _ "pkg.A" a_proto eq_refl eq_refl eq_refl
           genuine_a_proto acyclic_a_proto).
Defined.

End PythonFacts.

(** * The methods of the Python [RecordWriter] *)

Module RecordWriterFacts.
Import record_writer.
Local Open Scope list_scope.

Section Facts.
Context `{RecordWriterApi}.

Lemma WriteRecords_loop_for_each items stop :
  forall self,
    WriteRecords_loop items stop self = for_each_write_record items stop self.
Proof.
  induction items as [|record items IH]; intros self; [reflexivity|].
  simpl. unfold RecordWriterWriteRecord.
  destruct (BytesLike_FromPython record) as [e|bytes]; [reflexivity|].
  destruct (record_writer self) as [w|]; [|reflexivity].
  destruct (WriteRecord bytes w) as [[key|] w']; [apply IH|reflexivity].
Qed.

(** X16: [write_records] is the loop its comment gives. For an argument
    that iterates over [items], [RecordWriterWriteRecords] does what calling
    [RecordWriterWriteRecord] on each item in turn does, as long as none
    raises: it stops at the first item whose call raises, with that
    exception and with the earlier records written, and otherwise ends as
    the iteration ends. In particular an empty iterable returns [None] and
    does not look at the writer, even one that is not initialized. *)
Theorem RecordWriterWriteRecords_for_each self records_arg items stop :
  Iterate records_arg = inr (items, stop) ->
  RecordWriterWriteRecords self records_arg
  = for_each_write_record items stop self /\
  (items = [] -> stop = None ->
   RecordWriterWriteRecords self records_arg = (PyReturn Py_None, self)).
Proof.
  intros Hiter. unfold RecordWriterWriteRecords. rewrite Hiter. split.
  - apply WriteRecords_loop_for_each.
  - intros -> ->. reflexivity.
Qed.




(** X18: [__exit__] closes as [close] does and never hides the exception in
    flight. It leaves the writer in the state [close] leaves it in; with no
    exception in flight ([exc_type] is [None]) it raises what [close]
    raises, and otherwise returns [False]; with an exception in flight it
    never raises, even when the close fails, and returns [False]. *)
Theorem RecordWriterExit_closes self exc_type :
  (RecordWriterExit self exc_type).2 = (RecordWriterClose self).2 /\
  (is_None exc_type = true ->
   match (RecordWriterClose self).1 with
   | PyReturn _ => (RecordWriterExit self exc_type).1 = PyReturn Py_False
   | PyRaise e => (RecordWriterExit self exc_type).1 = PyRaise e
   end) /\
  (is_None exc_type = false ->
   (RecordWriterExit self exc_type).1 = PyReturn Py_False).
Proof.
  unfold RecordWriterExit, RecordWriterClose.
  destruct (record_writer self) as [w|];
    [|split; [reflexivity|split; intros _; reflexivity]].
  destruct (Close w) as [[|] w']; simpl;
    [split; [reflexivity|split; intros _; reflexivity]|].
  destruct (is_None exc_type); simpl;
    (split; [reflexivity|split; [intros E|intros E]]);
    try reflexivity; discriminate E.
Qed.

End Facts.

Import PythonWriterExample.

(** Three records for a writer that holds two: the third call raises, the
    first two records are written. *)
Lemma RecordWriterWriteRecords_for_each_witness :
  RecordWriterWriteRecords (H := python) (H0 := writer_api) (fresh_writer 2)
    (ListObject [Bytes "r1"; Bytes "r2"; Bytes "r3"])
  = (PyRaise (RiegeliException "RecordWriter is full or closed"),
     writer_object
       {| written := ["r1"; "r2"]; capacity := 2; closed := false |}).
Proof.
  exact (proj1 (RecordWriterWriteRecords_for_each (H := python)
                  (H0 := writer_api) (fresh_writer 2)
                  (ListObject [Bytes "r1"; Bytes "r2"; Bytes "r3"])
                  [Bytes "r1"; Bytes "r2"; Bytes "r3"] None eq_refl)).
Defined.


End RecordWriterFacts.

(** * Restoring and scanning on the in-memory source *)

(** Restored to the second of ["a"; "c"; "b"]: "a" is not read again. *)
Lemma RestoreInternal_then_scan_witness :
  exists it',
    RestoreInternal (RS := source) files_acb disk (checkpoint files_acb 1 None)
                    (at_chunk "a" 0 2)
    = Returns (tensorflow.OK, it') /\
    exists calls,
      produce_until_end (RS := source) files_acb calls disk it'
      = Returns [record_result "c1"; failed_result data_loss false;
                 record_result "b1"; record_result "b2"; end_result].
Proof.
  apply (RestoreInternal_then_scan (RS := source) files_acb disk
           (checkpoint files_acb 1 None) (at_chunk "a" 0 2) 1
           [([record_result "c1"], EndsFailed data_loss);
            ([record_result "b1"; record_result "b2"], EndsCleanly)]
           valid_files_acb).
  - vm_compute. reflexivity.
  - vm_compute. reflexivity.
  - vm_compute. split; discriminate.
  - repeat constructor; [exists 2%nat|exists 3%nat]; reflexivity.
Defined.

(** Restored into "a" past its first two records. *)
Lemma RestoreInternal_position_then_scan_witness :
  exists it',
    RestoreInternal (RS := source) files_ab disk
                    (checkpoint files_ab 0 (Some "xx")) Iterator_new
    = Returns (tensorflow.OK, it') /\
    reader_ it' = Some (snd (@Seek source 2%nat (@NewReader source disk "a"))) /\
    exists calls,
      produce_until_end (RS := source) files_ab calls disk it'
      = Returns [record_result "a3"; skipped_result (RS := source) "trailer";
                 record_result "b1"; record_result "b2"; end_result].
Proof.
  apply (RestoreInternal_position_then_scan (RS := source) files_ab disk
           (checkpoint files_ab 0 (Some "xx")) Iterator_new 0 "xx" 2%nat "a"
           3%nat
           ([record_result "a3"; skipped_result (RS := source) "trailer"],
            EndsCleanly)
           [([record_result "b1"; record_result "b2"], EndsCleanly)]
           valid_files_ab).
  - vm_compute. reflexivity.
  - vm_compute. reflexivity.
  - reflexivity.
  - lia.
  - reflexivity.
  - reflexivity.
  - repeat constructor. exists 3%nat. reflexivity.
Defined.
